(** * Machine image computation (machineimages/pkg/machineimages/machine_images.go)

    A shallow embedding of [ComputeMachineImages] and of the helpers it is
    built from, followed by the properties of the pipeline
    (merge, deduplicate, filter, group, sort, enrich).

    Modelling decisions, all taken from the Go source:
    - a [MachineImageVersion] is a Go map from string keys to values; the nil
      map and the empty map are different values, so the type is an option
      of a finite map;
    - version records are passed as values: [nextVersion[nextKey] = nextValue]
      returns the updated record, which is the one appended to the output.
      Module [InPlace] keeps the records as objects of a store that the
      write updates in place; [inplace_stage_refines] relates the two on
      catalogs in which no object is reached twice, as decoded catalogs are;
    - a slice is a list; a nil slice returned next to an error is [None];
    - a run-time panic (nil pointer dereference, assignment to an entry of a
      nil map) is the outcome [Panics];
    - the logger and the context only receive one informational event and are
      left out. *)

From Stdlib Require Import Structures.OrdersEx.
From stdpp Require Import gmap strings list fin_maps sorting.

Open Scope string_scope.
Open Scope list_scope.

(** ** Data model *)

(** The values an attribute of a version record can hold (Go's
    [interface{}]), restricted to the scalar values of a decoded catalog. *)
Inductive Value : Type :=
  | VString (s : string)
  | VInt (z : Z)
  | VBool (b : bool)
  | VNull.

#[global] Instance Value_eq_dec : EqDecision Value.
Proof. solve_decision. Defined.

(** [type MachineImageVersion map[string]interface{}]: [None] is the nil map. *)
Definition MachineImageVersion : Type := option (gmap string Value).

Record MachineImage : Type := mkMachineImage {
  Name : string;
  Versions : list MachineImageVersion
}.

Record OsImage : Type := mkOsImage {
  OsName : string;
  Version : MachineImageVersion
}.

#[global] Instance MachineImage_eq_dec : EqDecision MachineImage.
Proof. solve_decision. Defined.

#[global] Instance OsImage_eq_dec : EqDecision OsImage.
Proof. solve_decision. Defined.

(** Go errors are carried by their message. *)
Definition error : Type := string.

(** The error built by [validateFilters]. *)
Definition ConflictingFilters : error :=
  "exclude filter list contains element of include list".

(** Outcome of running a piece of Go code: a normal return or a panic. *)
Inductive completion (A : Type) : Type :=
  | Returns (a : A)
  | Panics.
Arguments Returns {A} a.
Arguments Panics {A}.

Definition cbind {A B : Type} (c : completion A) (k : A → completion B)
  : completion B :=
  match c with
  | Returns a => k a
  | Panics => Panics
  end.

Notation "x ←! c ; k" := (cbind c (fun x => k))
  (at level 20, c at level 100, k at level 200, right associativity,
   format "x  ←!  c ;  '/' k").

(** Dereference of a pointer that may be nil. *)
Definition deref {A : Type} (p : option A) : completion A :=
  match p with
  | Some a => Returns a
  | None => Panics
  end.

(** Reading a key of a version record; a nil map reads as having no key. *)
Definition readKey (v : MachineImageVersion) (k : string) : option Value :=
  match v with
  | Some m => m !! k
  | None => None
  end.

(** Modelled from the spec: the accessor [getVersion] is declared outside
    machine_images.go. A version record is "required to contain a
    recognizable version field (extracted via a defined accessor)", which
    "returns nil if absent"; the scenarios of the spec keep the identifier
    under the key [version] as a string. *)
Definition getVersion (v : MachineImageVersion) : option string :=
  match readKey v "version" with
  | Some (VString s) => Some s
  | _ => None
  end.

(** ** Helpers of machine_images.go *)

(** [contains]: linear scan with string equality. *)
Fixpoint contains (s : list string) (str : string) : bool :=
  match s with
  | [] => false
  | v :: s' => if String.eqb v str then true else contains s' str
  end.

(** [getVersionConfigInternal]: first record of the first image with the
    given name whose version identifier is present and equal to
    [versionNumber]. The inner loop is [findVersion]. *)
Fixpoint findVersion (versionNumber : string) (versions : list MachineImageVersion)
  : option MachineImageVersion :=
  match versions with
  | [] => None
  | nextVersion :: rest =>
      match getVersion nextVersion with
      | Some s =>
          if String.eqb s versionNumber then Some nextVersion
          else findVersion versionNumber rest
      | None => findVersion versionNumber rest
      end
  end.

Fixpoint getVersionConfigInternal (imageName versionNumber : string)
  (images : list MachineImage) : option MachineImageVersion :=
  match images with
  | [] => None
  | nextImage :: rest =>
      if String.eqb (Name nextImage) imageName then
        match findVersion versionNumber (Versions nextImage) with
        | Some config => Some config
        | None => getVersionConfigInternal imageName versionNumber rest
        end
      else getVersionConfigInternal imageName versionNumber rest
  end.

(** [getVersionConfig]: the provider-landscape catalog first, the provider
    catalog only when the first lookup returned nil. *)
Definition getVersionConfig (imageName versionNumber : string)
  (providerLandscapeOsImages providerOsImages : list MachineImage)
  : option MachineImageVersion :=
  match getVersionConfigInternal imageName versionNumber providerLandscapeOsImages with
  | Some config => Some config
  | None => getVersionConfigInternal imageName versionNumber providerOsImages
  end.

(** [reflect.DeepEqual] on two [OsImage] structs: equal names and deeply
    equal maps (both nil, or both non-nil with the same entries). *)
Definition DeepEqual (a b : OsImage) : bool := bool_decide (a = b).

(** [removeDuplicates]: [result] grows at its end; an image is appended
    unless the scan of [result] finds a deeply equal entry. *)
Definition removeDuplicates (images : list OsImage) : list OsImage :=
  fold_left
    (fun result nextImage =>
       if existsb (DeepEqual nextImage) result then result
       else result ++ [nextImage])
    images [].

(** [flatImages]: one [OsImage] per (image, version) pair, in source order. *)
Fixpoint flatImages (images : list MachineImage) : list OsImage :=
  match images with
  | [] => []
  | nextImage :: rest =>
      (mkOsImage (Name nextImage) <$> Versions nextImage) ++ flatImages rest
  end.

(** [validateFilters]: [Some err] when some include kind equals some exclude
    kind, [None] (a nil error) otherwise. *)
Definition validateFilters {K : Type} `{EqDecision K}
  (includeFilters excludeFilters : list K) : option error :=
  if existsb (fun include =>
                existsb (fun exclude => bool_decide (include = exclude))
                        excludeFilters)
             includeFilters
  then Some ConflictingFilters
  else None.

(** [convertOsImagesToMachineImages]: the versions of every name are
    collected in a map, in first-seen order per name; the result lists the
    entries of the map in the iteration order of the map. *)
Definition groupByName (images : list OsImage)
  : gmap string (list MachineImageVersion) :=
  fold_left
    (fun m image =>
       let versions :=
         match m !! OsName image with
         | None => [Version image]
         | Some versions => versions ++ [Version image]
         end in
       <[OsName image := versions]> m)
    images ∅.

Definition convertOsImagesToMachineImages (images : list OsImage)
  : list MachineImage :=
  (fun entry => mkMachineImage entry.1 entry.2)
    <$> map_to_list (groupByName images).

(** Go's [<] on strings: lexicographic comparison of the bytes. *)
Definition string_ltb (a b : string) : bool :=
  match String_as_OT.compare a b with
  | Lt => true
  | _ => false
  end.

(** [sort.SliceStable]: a stable sort. For a [less] that is a strict weak
    order every stable sort returns the same slice; it is written here as
    the stable insertion sort. *)
Fixpoint insertStable {A : Type} (less : A → A → bool) (x : A) (l : list A)
  : list A :=
  match l with
  | [] => [x]
  | y :: l' => if less y x then y :: insertStable less x l' else x :: y :: l'
  end.

Definition SliceStable {A : Type} (less : A → A → bool) (l : list A) : list A :=
  foldr (insertStable less) [] l.

(** [nextVersion[nextKey] = nextValue]: panics on a nil map. *)
Definition assign (v : MachineImageVersion) (k : string) (x : Value)
  : completion MachineImageVersion :=
  match v with
  | Some m => Returns (Some (<[k := x]> m))
  | None => Panics
  end.

(** The entries visited by [range] over a map; none for the nil map. *)
Definition rangeMap (v : MachineImageVersion) : list (string * Value) :=
  match v with
  | Some m => map_to_list m
  | None => []
  end.

(** Lines 85-87: every entry of the config record is written into the
    version record. *)
Definition mergeConfig (config nextVersion : MachineImageVersion)
  : completion MachineImageVersion :=
  fold_left
    (fun acc entry => nv ←! acc; assign nv entry.1 entry.2)
    (rangeMap config) (Returns nextVersion).

(** Lines 80-90: the inner loop of [getFilteredMachineImages]. The version
    number returned by [getVersion] is dereferenced without a nil check. *)
Fixpoint versionsWithConfig (imageName : string)
  (versions : list MachineImageVersion)
  (providerLandscapeOsImages providerOsImages : list MachineImage)
  : completion (list MachineImageVersion) :=
  match versions with
  | [] => Returns []
  | nextVersion :: rest =>
      versionNumber ←! deref (getVersion nextVersion);
      match getVersionConfig imageName versionNumber
              providerLandscapeOsImages providerOsImages with
      | Some config =>
          merged ←! mergeConfig config nextVersion;
          tail ←! versionsWithConfig imageName rest
                    providerLandscapeOsImages providerOsImages;
          Returns (merged :: tail)
      | None =>
          versionsWithConfig imageName rest
            providerLandscapeOsImages providerOsImages
      end
  end.

Fixpoint getFilteredMachineImages (machineImages : list MachineImage)
  (disableMachineImages : list string)
  (providerLandscapeOsImages providerOsImages : list MachineImage)
  : completion (list MachineImage) :=
  match machineImages with
  | [] => Returns []
  | nextImage :: rest =>
      if contains disableMachineImages (Name nextImage) then
        getFilteredMachineImages rest disableMachineImages
          providerLandscapeOsImages providerOsImages
      else
        versions ←! versionsWithConfig (Name nextImage) (Versions nextImage)
                      providerLandscapeOsImages providerOsImages;
        tail ←! getFilteredMachineImages rest disableMachineImages
                  providerLandscapeOsImages providerOsImages;
        Returns (if bool_decide (0 < length versions)
                 then mkMachineImage (Name nextImage) versions :: tail
                 else tail)
  end.

(** ** The entry point *)

Section Pipeline.
(** Declared outside machine_images.go and taken as parameters: the type
    of filter kinds with its equality and its [All] constant, the name
    that is sorted first, and the function [filterOsImages], which
    returns a slice and an error. *)
Context {OsImagesFilterKind : Type} `{EqDecision OsImagesFilterKind}.
Variable OsImagesFilterKindAll : OsImagesFilterKind.
Variable OsNameGardenLinux : string.
Variable filterOsImages :
  list OsImage → list OsImagesFilterKind → list OsImagesFilterKind →
  list OsImage * option error.

(** The comparison functions of the two sorts of lines 56-61. *)
Definition lessByName (a b : MachineImage) : bool :=
  string_ltb (Name a) (Name b).

Definition lessGardenLinux (a b : MachineImage) : bool :=
  String.eqb (Name a) OsNameGardenLinux
  && negb (String.eqb (Name b) OsNameGardenLinux).

(** Lines 41-61 after a successful filter: group, then the two sorts. *)
Definition sortMachineImages (machineImages : list MachineImage)
  : list MachineImage :=
  SliceStable lessGardenLinux (SliceStable lessByName machineImages).

(** The result is the Go pair (slice, error); [None] in the first
    component is the nil slice. *)
Definition ComputeMachineImages
  (lssOsImages landscapeOsImages providerOsImages
     providerLandscapeOsImages : list MachineImage)
  (disableMachineImages : list string)
  (includeFilters excludeFilters : list OsImagesFilterKind)
  : completion (option (list MachineImage) * option error) :=
  let includeFilters :=
    if bool_decide (length includeFilters = 0)
    then includeFilters ++ [OsImagesFilterKindAll]
    else includeFilters in
  match validateFilters includeFilters excludeFilters with
  | Some err => Returns (None, Some err)
  | None =>
      let flatLandscapeOsImages := flatImages landscapeOsImages in
      let flatLssOsImages := flatImages lssOsImages in
      let flatOsImages := flatLandscapeOsImages ++ flatLssOsImages in
      let flatOsImages := removeDuplicates flatOsImages in
      match filterOsImages flatOsImages includeFilters excludeFilters with
      | (_, Some err) => Returns (None, Some err)
      | (flatOsImages, None) =>
          if bool_decide (length flatOsImages = 0) then Returns (Some [], None)
          else
            let machineImages := convertOsImagesToMachineImages flatOsImages in
            let machineImages := sortMachineImages machineImages in
            machineImages ←! getFilteredMachineImages machineImages
                               disableMachineImages
                               providerLandscapeOsImages providerOsImages;
            Returns (Some machineImages, None)
      end
  end.
End Pipeline.

(** ** Concrete instances used in the examples *)

(** A filter that keeps every image and reports no error. *)
Definition keepAll (images : list OsImage) (includeFilters excludeFilters : list string)
  : list OsImage * option error := (images, None).

(** A version record with its identifier alone, and one with an attribute
    beside it. *)
Definition version (num : string) : MachineImageVersion :=
  Some {[ "version" := VString num ]}.

Definition versionWith (num key val : string) : MachineImageVersion :=
  Some (<[ key := VString val ]> {[ "version" := VString num ]}).

(** A version record without a version identifier. *)
Definition unidentified : MachineImageVersion :=
  Some {[ "arch" := VString "amd64" ]}.

Definition exampleLandscape : list MachineImage :=
  [ mkMachineImage "Ubuntu" [version "20.04"; version "22.04"];
    mkMachineImage "GardenLinux" [version "1.0"];
    mkMachineImage "Flatcar" [version "3.1"] ].

Definition exampleLss : list MachineImage :=
  [ mkMachineImage "GardenLinux" [version "1.0"];
    mkMachineImage "Debian" [version "12"] ].

Definition exampleProvider : list MachineImage :=
  [ mkMachineImage "Ubuntu" [versionWith "20.04" "arch" "amd64"];
    mkMachineImage "GardenLinux" [versionWith "1.0" "arch" "amd64"];
    mkMachineImage "Flatcar" [versionWith "3.1" "arch" "arm64"] ].

Definition exampleProviderLandscape : list MachineImage :=
  [ mkMachineImage "Ubuntu" [versionWith "20.04" "arch" "arm64"] ].

(** The grouped and sorted images of the example, as they enter the
    enrichment stage. *)
Definition exampleSorted : list MachineImage :=
  [ mkMachineImage "GardenLinux" [version "1.0"];
    mkMachineImage "Debian" [version "12"];
    mkMachineImage "Flatcar" [version "3.1"];
    mkMachineImage "Ubuntu" [version "20.04"; version "22.04"] ].

Definition exampleOutput : list MachineImage :=
  [ mkMachineImage "GardenLinux" [versionWith "1.0" "arch" "amd64"];
    mkMachineImage "Flatcar" [versionWith "3.1" "arch" "arm64"];
    mkMachineImage "Ubuntu" [versionWith "20.04" "arch" "arm64"] ].

(** ** Specification-side definitions *)

(** [c] is a config record of catalog [images] for the pair
    ([name], [num]). *)
Definition isRecord (images : list MachineImage) (name num : string)
  (c : MachineImageVersion) : Prop :=
  ∃ img, img ∈ images ∧ Name img = name ∧ c ∈ Versions img
         ∧ getVersion c = Some num.

Definition hasRecord (images : list MachineImage) (name num : string) : Prop :=
  ∃ c, isRecord images name num c.

(** One step of the loop of [removeDuplicates]. *)
Definition dedupStep (result : list OsImage) (nextImage : OsImage)
  : list OsImage :=
  if existsb (DeepEqual nextImage) result then result else result ++ [nextImage].

(** The entries of [l] that are not equal to any entry before them, in the
    order of [l]: the first occurrence of every distinct entry. *)
Definition firstOccurrences (l : list OsImage) : list OsImage :=
  omap id
    (imap (fun i x => if bool_decide (x ∈ take i l) then None else Some x) l).

(** A version record has a version identifier. *)
Definition identified (v : MachineImageVersion) : bool :=
  match getVersion v with
  | Some _ => true
  | None => false
  end.

(** What the enrichment stage makes of one version of image [name]: nothing
    when no catalog has a record for it, otherwise the record extended and
    overwritten by the entries of the config record. *)
Definition enrichVersion (name : string) (pl p : list MachineImage)
  (v : MachineImageVersion) : option MachineImageVersion :=
  match getVersion v with
  | None => None
  | Some num =>
      match getVersionConfig name num pl p, v with
      | Some (Some c), Some m => Some (Some (c ∪ m))
      | _, _ => None
      end
  end.

(** What the enrichment stage makes of one image. *)
Definition enrichImage (disable : list string) (pl p : list MachineImage)
  (img : MachineImage) : option MachineImage :=
  if contains disable (Name img) then None
  else
    match omap (enrichVersion (Name img) pl p) (Versions img) with
    | [] => None
    | vs => Some (mkMachineImage (Name img) vs)
    end.

(** Every version the enrichment stage looks at has a version identifier. *)
Definition allIdentified (disable : list string) (imgs : list MachineImage)
  : bool :=
  forallb (fun img => contains disable (Name img)
                      || forallb identified (Versions img)) imgs.

(** [a] is not after [b]: the second sort argument is not below the first. *)
Definition leName (a b : MachineImage) : Prop := lessByName b a = false.

(** The name of [a] is strictly before the name of [b]. *)
Definition ltName (a b : MachineImage) : Prop :=
  String_as_OT.lt (Name a) (Name b).

(** ** Version records as objects of a store

    In Go a [MachineImageVersion] is a reference to a map object, and line 86
    writes into the object of the version at hand. The definitions above
    pass version records as values. The model of this module keeps the
    objects in a store and the slices hold their addresses; further down the
    enrichment stage on values is shown to compute what the stage on the
    store computes, whenever no object is reached twice. An address without
    an object is the nil map. *)
Module InPlace.

Abbreviation store := (gmap nat (gmap string Value)).

Record RefImage : Type := mkRefImage {
  RName : string;
  RVersions : list nat
}.

(** The images a slice of addresses stands for in a store. *)
Definition loadImage (σ : store) (img : RefImage) : MachineImage :=
  mkMachineImage (RName img) ((σ !!.) <$> RVersions img).

(** The addresses a catalog holds. *)
Definition addresses (images : list RefImage) : list nat :=
  mjoin (RVersions <$> images).

(** [nextVersion[nextKey] = nextValue] on the object at [nextVersion]. *)
Definition assignAt (σ : store) (nextVersion : nat) (k : string) (x : Value)
  : completion store :=
  match σ !! nextVersion with
  | Some m => Returns (<[nextVersion := <[k := x]> m]> σ)
  | None => Panics
  end.

(** Lines 85-87 on the store; the entries of the config object are those it
    has when the loop starts. *)
Definition mergeInPlace (σ : store) (config nextVersion : nat)
  : completion store :=
  fold_left
    (fun acc entry => σ' ←! acc; assignAt σ' nextVersion entry.1 entry.2)
    (rangeMap (σ !! config)) (Returns σ).

Fixpoint findVersion (σ : store) (versionNumber : string)
  (versions : list nat) : option nat :=
  match versions with
  | [] => None
  | nextVersion :: rest =>
      match getVersion (σ !! nextVersion) with
      | Some s =>
          if String.eqb s versionNumber then Some nextVersion
          else findVersion σ versionNumber rest
      | None => findVersion σ versionNumber rest
      end
  end.

Fixpoint getVersionConfigInternal (σ : store)
  (imageName versionNumber : string) (images : list RefImage) : option nat :=
  match images with
  | [] => None
  | nextImage :: rest =>
      if String.eqb (RName nextImage) imageName then
        match findVersion σ versionNumber (RVersions nextImage) with
        | Some config => Some config
        | None => getVersionConfigInternal σ imageName versionNumber rest
        end
      else getVersionConfigInternal σ imageName versionNumber rest
  end.

Definition getVersionConfig (σ : store) (imageName versionNumber : string)
  (providerLandscapeOsImages providerOsImages : list RefImage) : option nat :=
  match getVersionConfigInternal σ imageName versionNumber
          providerLandscapeOsImages with
  | Some config => Some config
  | None =>
      getVersionConfigInternal σ imageName versionNumber providerOsImages
  end.

Fixpoint versionsWithConfig (σ : store) (imageName : string)
  (versions : list nat)
  (providerLandscapeOsImages providerOsImages : list RefImage)
  : completion (list nat * store) :=
  match versions with
  | [] => Returns ([], σ)
  | nextVersion :: rest =>
      versionNumber ←! deref (getVersion (σ !! nextVersion));
      match getVersionConfig σ imageName versionNumber
              providerLandscapeOsImages providerOsImages with
      | Some config =>
          σ1 ←! mergeInPlace σ config nextVersion;
          tail ←! versionsWithConfig σ1 imageName rest
                    providerLandscapeOsImages providerOsImages;
          Returns (nextVersion :: tail.1, tail.2)
      | None =>
          versionsWithConfig σ imageName rest
            providerLandscapeOsImages providerOsImages
      end
  end.

Fixpoint getFilteredMachineImages (σ : store)
  (machineImages : list RefImage) (disableMachineImages : list string)
  (providerLandscapeOsImages providerOsImages : list RefImage)
  : completion (list RefImage * store) :=
  match machineImages with
  | [] => Returns ([], σ)
  | nextImage :: rest =>
      if contains disableMachineImages (RName nextImage) then
        getFilteredMachineImages σ rest disableMachineImages
          providerLandscapeOsImages providerOsImages
      else
        versions ←! versionsWithConfig σ (RName nextImage)
                      (RVersions nextImage)
                      providerLandscapeOsImages providerOsImages;
        tail ←! getFilteredMachineImages versions.2 rest disableMachineImages
                  providerLandscapeOsImages providerOsImages;
        Returns (if bool_decide (0 < length versions.1)
                 then mkRefImage (RName nextImage) versions.1 :: tail.1
                 else tail.1,
                 tail.2)
  end.

(** No object is reached twice by the stage: the versions of the images
    are pairwise different objects, and none of them is an object of a
    provider catalog. *)
Definition separated (machineImages providerLandscapeOsImages
                        providerOsImages : list RefImage) : Prop :=
  NoDup (addresses machineImages)
  ∧ ∀ l, l ∈ addresses machineImages →
         (l ∉ addresses providerLandscapeOsImages)
         ∧ (l ∉ addresses providerOsImages).

End InPlace.

(** A store in which the images [Debian] and [Ubuntu] hold the same version
    object (address 0), and a provider catalog with a record for each. *)
Definition sharedStore : InPlace.store :=
  {[ 0 := {[ "version" := VString "1" ]};
     1 := <[ "arch" := VString "amd64" ]> {[ "version" := VString "1" ]};
     2 := <[ "arch" := VString "arm64" ]> {[ "version" := VString "1" ]} ]}.

Definition sharedImages : list InPlace.RefImage :=
  [ InPlace.mkRefImage "Debian" [0]; InPlace.mkRefImage "Ubuntu" [0] ].

Definition sharedProvider : list InPlace.RefImage :=
  [ InPlace.mkRefImage "Debian" [1]; InPlace.mkRefImage "Ubuntu" [2] ].

(** ** Definitions for the further properties *)

(** The include list that lines 32-34 hand to the validation and to the
    filter. *)
Definition effectiveIncludeFilters {K : Type} (all : K) (includeFilters : list K)
  : list K :=
  if bool_decide (length includeFilters = 0)
  then includeFilters ++ [all]
  else includeFilters.

(** The flat list that line 44 hands to the filter. *)
Definition mergedFlatImages (lssOsImages landscapeOsImages : list MachineImage)
  : list OsImage :=
  removeDuplicates (flatImages landscapeOsImages ++ flatImages lssOsImages).

(** The version records of the entries of a flat list with a given name, in
    the order of the list. *)
Definition versionsNamed (name : string) (images : list OsImage)
  : list MachineImageVersion :=
  Version <$> filter (fun o => OsName o = name) images.

(** A filter that fails. *)
Definition rejectAll (images : list OsImage)
  (includeFilters excludeFilters : list string)
  : list OsImage * option error := ([], Some "unknown filter kind").

(** What the stage on the store may do to a store: no object appears or
    disappears, no object loses a key, and no version identifier changes. *)
Definition storeExtends (σ σ' : InPlace.store) : Prop :=
  ∀ l, getVersion (σ' !! l) = getVersion (σ !! l)
       ∧ match σ !! l with
         | Some m => ∃ m', σ' !! l = Some m' ∧ dom m ⊆ dom m'
         | None => σ' !! l = None
         end.

(** A store in which every record is an object of its own. *)
Definition exampleStore : InPlace.store :=
  {[ 0 := {[ "version" := VString "1.0" ]};
     1 := {[ "version" := VString "20.04" ]};
     2 := {[ "version" := VString "22.04" ]};
     10 := <[ "arch" := VString "amd64" ]> {[ "version" := VString "1.0" ]};
     11 := <[ "arch" := VString "arm64" ]> {[ "version" := VString "20.04" ]} ]}.

Definition exampleRefImages : list InPlace.RefImage :=
  [ InPlace.mkRefImage "GardenLinux" [0];
    InPlace.mkRefImage "Ubuntu" [1; 2] ].

Definition exampleRefProvider : list InPlace.RefImage :=
  [ InPlace.mkRefImage "GardenLinux" [10];
    InPlace.mkRefImage "Ubuntu" [11] ].

(** [exampleStore] after the stage has run on [exampleRefImages]. *)
Definition exampleStoreAfter : InPlace.store :=
  {[ 0 := <[ "arch" := VString "amd64" ]> {[ "version" := VString "1.0" ]};
     1 := <[ "arch" := VString "arm64" ]> {[ "version" := VString "20.04" ]};
     2 := {[ "version" := VString "22.04" ]};
     10 := <[ "arch" := VString "amd64" ]> {[ "version" := VString "1.0" ]};
     11 := <[ "arch" := VString "arm64" ]> {[ "version" := VString "20.04" ]} ]}.

(** A provider catalog in which the record looked for comes after an image
    with another name, a record without identifier, a record with another
    identifier, and before a second record with the same identifier. *)
Definition exampleScan : list MachineImage :=
  [ mkMachineImage "GardenLinux" [versionWith "20.04" "arch" "amd64"];
    mkMachineImage "Ubuntu"
      [ unidentified; version "22.04";
        versionWith "20.04" "arch" "arm64";
        versionWith "20.04" "arch" "amd64" ] ].

(** Closed decidable facts about the examples. *)
Ltac by_computation := apply (bool_decide_unpack _); vm_compute; exact I.

(** ** Scenarios of the specification *)

Example scenario_ubuntu :
  ComputeMachineImages "All" "GardenLinux" keepAll
    [] [mkMachineImage "Ubuntu" [version "20.04"]]
    [mkMachineImage "Ubuntu" [versionWith "20.04" "arch" "amd64"]] [] [] [] []
  = Returns
      (Some [mkMachineImage "Ubuntu" [versionWith "20.04" "arch" "amd64"]],
       None).
Proof. vm_compute. reflexivity. Qed.

Example scenario_ubuntu_disabled :
  ComputeMachineImages "All" "GardenLinux" keepAll
    [] [mkMachineImage "Ubuntu" [version "20.04"]]
    [mkMachineImage "Ubuntu" [versionWith "20.04" "arch" "amd64"]] []
    ["Ubuntu"] [] []
  = Returns (Some [], None).
Proof. vm_compute. reflexivity. Qed.

Example scenario_no_provider_config :
  ComputeMachineImages "All" "GardenLinux" keepAll
    [] [mkMachineImage "Ubuntu" [version "20.04"]] [] [] [] [] []
  = Returns (Some [], None).
Proof. vm_compute. reflexivity. Qed.

Example example_sorted :
  sortMachineImages "GardenLinux"
    (convertOsImagesToMachineImages
       (removeDuplicates (flatImages exampleLandscape ++ flatImages exampleLss)))
  = exampleSorted.
Proof. vm_compute. reflexivity. Qed.

Example example_output :
  ComputeMachineImages "All" "GardenLinux" keepAll
    exampleLss exampleLandscape exampleProvider exampleProviderLandscape
    [] [] []
  = Returns (Some exampleOutput, None).
Proof. vm_compute. reflexivity. Qed.

(** ** Lookup of provider config records *)

Lemma contains_spec (s : list string) (str : string) :
  contains s str = true ↔ str ∈ s.
Proof.
  induction s as [|v s IH]; simpl.
  - split; [discriminate | by intros ?%elem_of_nil].
  - destruct (String.eqb_spec v str) as [->|Hne].
    + split; [intros _; left | done].
    + rewrite IH, elem_of_cons. intuition congruence.
Qed.

Lemma findVersion_Some (num : string) (vs : list MachineImageVersion) c :
  findVersion num vs = Some c → c ∈ vs ∧ getVersion c = Some num.
Proof.
  induction vs as [|v vs IH]; simpl; [discriminate|].
  destruct (getVersion v) as [s|] eqn:Hv.
  - destruct (String.eqb_spec s num) as [->|Hne].
    + intros [= <-]. split; [left | done].
    + intros [? ?]%IH. split; [by right | done].
  - intros [? ?]%IH. split; [by right | done].
Qed.

Lemma findVersion_None (num : string) (vs : list MachineImageVersion) :
  findVersion num vs = None ↔ ∀ c, c ∈ vs → getVersion c ≠ Some num.
Proof.
  induction vs as [|v vs IH]; simpl.
  - split; [by intros _ c ?%elem_of_nil | done].
  - destruct (getVersion v) as [s|] eqn:Hv.
    + destruct (String.eqb_spec s num) as [->|Hne].
      * split; [discriminate|]. intros H. exfalso. apply (H v); [left | done].
      * rewrite IH. split.
        -- intros H c [->|Hc]%elem_of_cons; [congruence | by apply H].
        -- intros H c Hc. apply H. by right.
    + rewrite IH. split.
      * intros H c [->|Hc]%elem_of_cons; [congruence | by apply H].
      * intros H c Hc. apply H. by right.
Qed.

Lemma getVersionConfigInternal_Some name num images c :
  getVersionConfigInternal name num images = Some c → isRecord images name num c.
Proof.
  induction images as [|img images IH]; simpl; [discriminate|].
  destruct (String.eqb_spec (Name img) name) as [Hn|Hn].
  - destruct (findVersion num (Versions img)) as [c'|] eqn:Hf.
    + intros [= <-]. apply findVersion_Some in Hf as [? ?].
      exists img. split; [left | done].
    + intros (img' & ? & ?)%IH. exists img'. split; [by right | done].
  - intros (img' & ? & ?)%IH. exists img'. split; [by right | done].
Qed.

Lemma getVersionConfigInternal_None name num images :
  getVersionConfigInternal name num images = None ↔ ¬ hasRecord images name num.
Proof.
  induction images as [|img images IH]; simpl.
  - split; [|done]. intros _ (c & img & []%elem_of_nil & _).
  - destruct (String.eqb_spec (Name img) name) as [Hn|Hn].
    + destruct (findVersion num (Versions img)) as [c'|] eqn:Hf.
      * split; [discriminate|]. intros H. exfalso. apply H.
        apply findVersion_Some in Hf as [? ?]. exists c', img.
        split; [left | done].
      * rewrite IH. rewrite findVersion_None in Hf. split.
        -- intros H (c & img' & [->|Hin]%elem_of_cons & Hname & Hc & Hv).
           ++ by apply (Hf c).
           ++ apply H. by exists c, img'.
        -- intros H (c & img' & Hin & ?). apply H. exists c, img'.
           split; [by right | done].
    + rewrite IH. split.
      * intros H (c & img' & [->|Hin]%elem_of_cons & Hname & Hc & Hv);
          [done|]. apply H. by exists c, img'.
      * intros H (c & img' & Hin & ?). apply H. exists c, img'.
        split; [by right | done].
Qed.

Lemma getVersionConfig_Some name num pl p c :
  getVersionConfig name num pl p = Some c →
  isRecord pl name num c ∨ isRecord p name num c.
Proof.
  unfold getVersionConfig.
  destruct (getVersionConfigInternal name num pl) as [c'|] eqn:Hpl.
  - intros [= <-]. left. by apply getVersionConfigInternal_Some.
  - intros ?%getVersionConfigInternal_Some. by right.
Qed.

Lemma getVersionConfig_None name num pl p :
  getVersionConfig name num pl p = None ↔
  ¬ hasRecord pl name num ∧ ¬ hasRecord p name num.
Proof.
  unfold getVersionConfig.
  destruct (getVersionConfigInternal name num pl) as [c'|] eqn:Hpl.
  - split; [discriminate|]. intros [H _]. exfalso. apply H.
    exists c'. by apply getVersionConfigInternal_Some.
  - apply getVersionConfigInternal_None in Hpl.
    rewrite getVersionConfigInternal_None. tauto.
Qed.

(** C4. When the provider-landscape catalog has a config record for a pair
    (image name, version identifier), [getVersionConfig] returns the record
    found in that catalog, whatever the provider catalog holds (so also when
    both catalogs have one); the provider catalog decides the result only
    when the provider-landscape catalog has no record for the pair. *)
Theorem getVersionConfig_landscape_precedence
  (name num : string) (pl p : list MachineImage) :
  (hasRecord pl name num →
     ∃ c, getVersionConfig name num pl p = Some c
          ∧ getVersionConfigInternal name num pl = Some c
          ∧ isRecord pl name num c)
  ∧ (¬ hasRecord pl name num →
     getVersionConfig name num pl p = getVersionConfigInternal name num p).
Proof.
  unfold getVersionConfig. split.
  - intros Hpl.
    destruct (getVersionConfigInternal name num pl) as [c|] eqn:Hl.
    + exists c. repeat split. by apply getVersionConfigInternal_Some.
    + by apply getVersionConfigInternal_None in Hl.
  - intros Hno%getVersionConfigInternal_None. by rewrite Hno.
Qed.

(** ** Validation of the filters *)

Lemma validateFilters_Some {K : Type} `{EqDecision K} (inc exc : list K) :
  validateFilters inc exc = Some ConflictingFilters ↔ ∃ k, k ∈ inc ∧ k ∈ exc.
Proof.
  unfold validateFilters.
  destruct (existsb _ inc) eqn:E.
  - split; [intros _ | done].
    apply existsb_exists in E as (k & Hk & E).
    apply existsb_exists in E as (k' & Hk' & Heq%bool_decide_eq_true).
    exists k. rewrite !list_elem_of_In. by rewrite Heq at 2.
  - split; [discriminate|]. intros (k & Hk & Hk').
    assert (existsb
              (fun include =>
                 existsb (fun exclude => bool_decide (include = exclude)) exc)
              inc = true) as E'; [|congruence].
    apply existsb_exists. exists k. split; [by apply list_elem_of_In|].
    apply existsb_exists. exists k. split; [by apply list_elem_of_In|].
    by apply bool_decide_eq_true.
Qed.

Lemma validateFilters_None {K : Type} `{EqDecision K} (inc exc : list K) :
  validateFilters inc exc = None ↔ ¬ ∃ k, k ∈ inc ∧ k ∈ exc.
Proof.
  rewrite <- validateFilters_Some. unfold validateFilters.
  destruct (existsb _ inc); naive_solver.
Qed.

(** ** The deduplicator *)

Lemma existsb_DeepEqual (x : OsImage) (l : list OsImage) :
  existsb (DeepEqual x) l = true ↔ x ∈ l.
Proof.
  rewrite existsb_exists. unfold DeepEqual. split.
  - intros (y & Hy & ->%bool_decide_eq_true). by apply list_elem_of_In.
  - intros Hx. exists x. split; [by apply list_elem_of_In|].
    by apply bool_decide_eq_true.
Qed.

Lemma dedupStep_in (result : list OsImage) x :
  x ∈ result → dedupStep result x = result.
Proof.
  intros Hx. unfold dedupStep.
  apply existsb_DeepEqual in Hx. by rewrite Hx.
Qed.

Lemma dedupStep_notin (result : list OsImage) x :
  x ∉ result → dedupStep result x = result ++ [x].
Proof.
  intros Hx. unfold dedupStep.
  destruct (existsb (DeepEqual x) result) eqn:E; [|done].
  by apply existsb_DeepEqual in E.
Qed.

Lemma dedup_fold_NoDup (l acc : list OsImage) :
  NoDup acc → NoDup (fold_left dedupStep l acc).
Proof.
  revert acc. induction l as [|x l IH]; intros acc Hacc; simpl; [done|].
  apply IH. destruct (decide (x ∈ acc)) as [Hx|Hx].
  - by rewrite dedupStep_in.
  - rewrite dedupStep_notin by done. apply NoDup_app.
    repeat split; [done| |apply NoDup_singleton].
    intros y Hy ->%list_elem_of_singleton. done.
Qed.

Lemma dedup_fold_elem_of (l acc : list OsImage) x :
  x ∈ fold_left dedupStep l acc ↔ x ∈ acc ∨ x ∈ l.
Proof.
  revert acc. induction l as [|y l IH]; intros acc; simpl.
  - rewrite elem_of_nil. tauto.
  - rewrite IH, elem_of_cons. destruct (decide (y ∈ acc)) as [Hy|Hy].
    + rewrite dedupStep_in by done. intuition (subst; auto).
    + rewrite dedupStep_notin by done.
      rewrite elem_of_app, list_elem_of_singleton. intuition (subst; auto).
Qed.

Lemma dedup_fold_fixed (l acc : list OsImage) :
  NoDup (acc ++ l) → fold_left dedupStep l acc = acc ++ l.
Proof.
  revert acc. induction l as [|x l IH]; intros acc Hnd; simpl.
  - by rewrite app_nil_r.
  - assert (x ∉ acc) as Hx.
    { apply NoDup_app in Hnd as (_ & Hd & _). intros Hin.
      apply (Hd x Hin). left. }
    rewrite dedupStep_notin by done.
    rewrite IH; rewrite <- app_assoc; done.
Qed.

Lemma removeDuplicates_NoDup (images : list OsImage) :
  NoDup (removeDuplicates images).
Proof. apply (dedup_fold_NoDup images []), NoDup_nil_2. Qed.

Lemma removeDuplicates_elem_of (images : list OsImage) x :
  x ∈ removeDuplicates images ↔ x ∈ images.
Proof.
  unfold removeDuplicates.
  change (x ∈ fold_left dedupStep images [] ↔ x ∈ images).
  rewrite dedup_fold_elem_of, elem_of_nil. tauto.
Qed.

(** C8. Running the deduplicator on its own output returns that output. *)
Theorem removeDuplicates_idempotent (xs : list OsImage) :
  removeDuplicates (removeDuplicates xs) = removeDuplicates xs.
Proof.
  pose proof (removeDuplicates_NoDup xs) as Hnd.
  apply (dedup_fold_fixed (removeDuplicates xs) []). done.
Qed.

Lemma firstOccurrences_snoc (l : list OsImage) x :
  firstOccurrences (l ++ [x])
  = firstOccurrences l ++ (if bool_decide (x ∈ l) then [] else [x]).
Proof.
  unfold firstOccurrences. rewrite imap_app, omap_app. f_equal.
  - f_equal. apply imap_ext. intros i y Hi. simpl.
    rewrite take_app_le; [done|]. apply lookup_lt_Some in Hi. lia.
  - simpl. rewrite Nat.add_0_r, take_app_length.
    by destruct (bool_decide (x ∈ l)).
Qed.

Lemma firstOccurrences_elem_of (l : list OsImage) x :
  x ∈ firstOccurrences l ↔ x ∈ l.
Proof.
  induction l as [|y l IH] using rev_ind; [done|].
  rewrite firstOccurrences_snoc, !elem_of_app, IH, list_elem_of_singleton.
  destruct (bool_decide_reflect (y ∈ l)) as [Hy|Hy].
  - rewrite elem_of_nil. intuition (subst; auto).
  - rewrite list_elem_of_singleton. intuition (subst; auto).
Qed.

Lemma dedupStep_firstOccurrences (l : list OsImage) x :
  dedupStep (firstOccurrences l) x = firstOccurrences (l ++ [x]).
Proof.
  rewrite firstOccurrences_snoc.
  destruct (bool_decide_reflect (x ∈ l)) as [Hx|Hx].
  - rewrite app_nil_r. apply dedupStep_in. by apply firstOccurrences_elem_of.
  - apply dedupStep_notin. by rewrite firstOccurrences_elem_of.
Qed.

Lemma dedup_fold_firstOccurrences (l pre : list OsImage) :
  fold_left dedupStep l (firstOccurrences pre) = firstOccurrences (pre ++ l).
Proof.
  revert pre. induction l as [|x l IH]; intros pre; simpl.
  - by rewrite app_nil_r.
  - rewrite dedupStep_firstOccurrences, IH. by rewrite <- app_assoc.
Qed.

(** C7. The output of [removeDuplicates] has no two equal entries, and it
    is the list of the first occurrences of the entries of the input, in
    their order in the input. *)
Theorem removeDuplicates_first_occurrences (xs : list OsImage) :
  NoDup (removeDuplicates xs)
  ∧ removeDuplicates xs = firstOccurrences xs
  ∧ removeDuplicates xs `sublist_of` xs.
Proof.
  assert (removeDuplicates xs = firstOccurrences xs) as Heq
    by apply (dedup_fold_firstOccurrences xs []).
  split; [apply removeDuplicates_NoDup|]. split; [done|].
  rewrite Heq. clear Heq.
  induction xs as [|x xs IH] using rev_ind; [done|].
  rewrite firstOccurrences_snoc. apply sublist_app; [done|].
  destruct (bool_decide (x ∈ xs)); [apply sublist_nil_l | done].
Qed.

(** ** The enrichment stage *)

Lemma getVersion_Some_inv (v : MachineImageVersion) num :
  getVersion v = Some num →
  ∃ m, v = Some m ∧ m !! "version" = Some (VString num).
Proof.
  unfold getVersion, readKey. destruct v as [m|]; [|discriminate].
  destruct (m !! "version") as [[s| | |]|] eqn:Hm; try discriminate.
  intros [= ->]. by exists m.
Qed.

Lemma merge_fold_Some (l : list (string * Value)) (m : gmap string Value) :
  NoDup l.*1 →
  fold_left (fun acc entry => nv ←! acc; assign nv entry.1 entry.2)
    l (Returns (Some m))
  = Returns (Some (list_to_map l ∪ m)).
Proof.
  revert m. induction l as [|[k x] l IH]; intros m Hnd; simpl.
  - by rewrite (left_id_L ∅ (∪)).
  - apply NoDup_cons in Hnd as [Hk Hnd]. rewrite IH by done.
    do 2 f_equal. rewrite <- insert_union_l.
    apply not_elem_of_list_to_map_1 in Hk.
    by rewrite insert_union_r.
Qed.

Lemma mergeConfig_Some (c m : gmap string Value) :
  mergeConfig (Some c) (Some m) = Returns (Some (c ∪ m)).
Proof.
  unfold mergeConfig, rangeMap.
  rewrite merge_fold_Some by apply NoDup_fst_map_to_list.
  by rewrite list_to_map_to_list.
Qed.

Lemma versionsWithConfig_spec name (vs : list MachineImageVersion) pl p :
  versionsWithConfig name vs pl p
  = if forallb identified vs
    then Returns (omap (enrichVersion name pl p) vs)
    else Panics.
Proof.
  induction vs as [|v vs IH]; simpl; [done|].
  unfold identified at 1, enrichVersion at 1.
  destruct (getVersion v) as [num|] eqn:Hv; simpl; [|done].
  apply getVersion_Some_inv in Hv as (m & -> & Hm).
  destruct (getVersionConfig name num pl p) as [config|] eqn:Hc.
  - assert (∃ c, config = Some c) as [c ->].
    { apply getVersionConfig_Some in Hc as [(?&?&?&?&Hg)|(?&?&?&?&Hg)];
        apply getVersion_Some_inv in Hg as (c & -> & _); by exists c. }
    rewrite mergeConfig_Some. simpl. rewrite IH.
    by destruct (forallb identified vs).
  - done.
Qed.

Lemma getFilteredMachineImages_spec (imgs : list MachineImage) disable pl p :
  getFilteredMachineImages imgs disable pl p
  = if allIdentified disable imgs
    then Returns (omap (enrichImage disable pl p) imgs)
    else Panics.
Proof.
  induction imgs as [|img imgs IH]; simpl; [done|].
  unfold enrichImage at 1.
  destruct (contains disable (Name img)) eqn:Hd; simpl; [done|].
  rewrite versionsWithConfig_spec.
  destruct (forallb identified (Versions img)); simpl; [|done].
  rewrite IH. fold (allIdentified disable imgs).
  destruct (allIdentified disable imgs); simpl; [|done].
  by destruct (omap (enrichVersion (Name img) pl p) (Versions img)).
Qed.

Lemma getFilteredMachineImages_Returns imgs disable pl p out :
  getFilteredMachineImages imgs disable pl p = Returns out →
  allIdentified disable imgs = true
  ∧ out = omap (enrichImage disable pl p) imgs.
Proof.
  rewrite getFilteredMachineImages_spec.
  destruct (allIdentified disable imgs); [|discriminate].
  by intros [= <-].
Qed.

Lemma enrichImage_Some disable pl p img img' :
  enrichImage disable pl p img = Some img' →
  contains disable (Name img) = false
  ∧ Name img' = Name img
  ∧ Versions img' = omap (enrichVersion (Name img) pl p) (Versions img)
  ∧ Versions img' ≠ [].
Proof.
  unfold enrichImage. destruct (contains disable (Name img)); [discriminate|].
  destruct (omap _ (Versions img)) as [|v vs] eqn:E; [discriminate|].
  by intros [= <-].
Qed.


Lemma getVersionConfig_getVersion name num pl p config :
  getVersionConfig name num pl p = Some config → getVersion config = Some num.
Proof. intros [(?&?&?&?&?)|(?&?&?&?&?)]%getVersionConfig_Some; done. Qed.

Lemma getVersion_merged (c m : gmap string Value) num :
  getVersion (Some c) = Some num → getVersion (Some (c ∪ m)) = Some num.
Proof.
  intros (c' & [= <-] & Hc)%getVersion_Some_inv.
  unfold getVersion, readKey.
  rewrite (lookup_union_l' c m) by eauto. by rewrite Hc.
Qed.



(** The images of the output keep the order of the input of the stage. *)
Lemma getFilteredMachineImages_names_sublist imgs disable pl p out :
  getFilteredMachineImages imgs disable pl p = Returns out →
  Name <$> out `sublist_of` Name <$> imgs.
Proof.
  intros [_ ->]%getFilteredMachineImages_Returns.
  induction imgs as [|img imgs IH]; simpl; [done|].
  destruct (enrichImage disable pl p img) as [img'|] eqn:He.
  - apply enrichImage_Some in He as (_ & Hn & _). rewrite fmap_cons, Hn.
    by apply sublist_skip.
  - by apply sublist_cons.
Qed.

Lemma forallb_false_exists {A : Type} (f : A → bool) (l : list A) :
  forallb f l = false → ∃ x, x ∈ l ∧ f x = false.
Proof.
  induction l as [|x l IH]; simpl; [discriminate|].
  destruct (f x) eqn:Hx; simpl.
  - intros H. apply IH in H as (y & Hy & Hfy). exists y. split; [by right|done].
  - intros _. exists x. split; [left|done].
Qed.

(** The stage panics exactly when an image that is not disabled has a
    version without a version identifier. *)
Lemma getFilteredMachineImages_Panics imgs disable pl p :
  getFilteredMachineImages imgs disable pl p = Panics ↔
  (∃ img v, img ∈ imgs ∧ (Name img ∉ disable) ∧ v ∈ Versions img
            ∧ getVersion v = None).
Proof.
  rewrite getFilteredMachineImages_spec.
  destruct (allIdentified disable imgs) eqn:E.
  - split; [discriminate|]. intros (img & v & Himg & Hd & Hv & Hnone).
    unfold allIdentified in E. rewrite forallb_forall in E.
    apply list_elem_of_In, E, orb_true_iff in Himg as [Hc|Hall].
    + by apply contains_spec in Hc.
    + rewrite forallb_forall in Hall.
      apply list_elem_of_In, Hall in Hv. unfold identified in Hv.
      by rewrite Hnone in Hv.
  - split; [intros _|done].
    apply forallb_false_exists in E as (img & Himg & E).
    apply orb_false_iff in E as [Hc Hall].
    apply forallb_false_exists in Hall as (v & Hv & Hall).
    exists img, v. repeat split; [done| |done|].
    + rewrite <- contains_spec. by rewrite Hc.
    + unfold identified in Hall. by destruct (getVersion v).
Qed.



(** Disabled names are dropped by the enrichment stage. *)
Lemma getFilteredMachineImages_disabled imgs disable pl p out name :
  getFilteredMachineImages imgs disable pl p = Returns out →
  name ∈ disable → name ∉ Name <$> out.
Proof.
  intros [_ ->]%getFilteredMachineImages_Returns Hd.
  intros (img' & -> & Himg)%list_elem_of_fmap.
  apply list_elem_of_omap in Himg as (img & _ & He).
  apply enrichImage_Some in He as (Hc & Hn & _).
  rewrite Hn in Hd. apply contains_spec in Hd. congruence.
Qed.

(** ** The two stable sorts *)

Lemma insertStable_perm {A : Type} (less : A → A → bool) x (l : list A) :
  insertStable less x l ≡ₚ x :: l.
Proof.
  induction l as [|y l IH]; simpl; [done|].
  destruct (less y x); [|done].
  rewrite IH. apply perm_swap.
Qed.

Lemma SliceStable_perm {A : Type} (less : A → A → bool) (l : list A) :
  SliceStable less l ≡ₚ l.
Proof.
  induction l as [|x l IH]; simpl; [done|].
  rewrite insertStable_perm. by rewrite IH.
Qed.

Lemma StronglySorted_sublist {A : Type} (R : relation A) (l k : list A) :
  k `sublist_of` l → StronglySorted R l → StronglySorted R k.
Proof.
  induction 1 as [|x k l Hs IH|x k l Hs IH]; intros Hl; [done|..].
  - apply StronglySorted_cons in Hl as [Hx Hl].
    apply StronglySorted_cons. split; [|by apply IH].
    rewrite Forall_forall in Hx |- *. intros y Hy. apply Hx.
    by eapply elem_of_sublist.
  - apply StronglySorted_cons in Hl as [_ Hl]. by apply IH.
Qed.

Lemma string_ltb_lt (a b : string) :
  string_ltb a b = true ↔ String_as_OT.lt a b.
Proof.
  unfold string_ltb, String_as_OT.lt.
  destruct (String_as_OT.compare a b); naive_solver.
Qed.

Lemma string_ltb_false (a b : string) :
  string_ltb b a = false → a = b ∨ String_as_OT.lt a b.
Proof.
  unfold string_ltb.
  destruct (String_as_OT.compare_spec b a) as [Heq|Hlt|Hgt];
    [by left | discriminate | by right].
Qed.

Lemma string_lt_irrefl (a : string) : ¬ String_as_OT.lt a a.
Proof. apply (StrictOrder_Irreflexive (R := String_as_OT.lt)). Qed.

Lemma string_lt_trans (a b c : string) :
  String_as_OT.lt a b → String_as_OT.lt b c → String_as_OT.lt a c.
Proof. apply (StrictOrder_Transitive (R := String_as_OT.lt)). Qed.

Lemma string_lt_ltb_false (a b : string) :
  String_as_OT.lt a b → string_ltb b a = false.
Proof.
  intros Hab. destruct (string_ltb b a) eqn:E; [|done].
  apply string_ltb_lt in E. destruct (string_lt_irrefl a).
  by eapply string_lt_trans.
Qed.

Lemma leName_trans (a b c : MachineImage) :
  leName a b → leName b c → leName a c.
Proof.
  unfold leName, lessByName.
  intros [Hab|Hab]%string_ltb_false [Hbc|Hbc]%string_ltb_false.
  - rewrite Hab, Hbc. destruct (string_ltb (Name c) (Name c)) eqn:E; [|done].
    apply string_ltb_lt in E. by destruct (string_lt_irrefl (Name c)).
  - rewrite Hab. by apply string_lt_ltb_false.
  - rewrite <- Hbc. by apply string_lt_ltb_false.
  - apply string_lt_ltb_false. by eapply string_lt_trans.
Qed.

Lemma insertStable_byName_sorted x (l : list MachineImage) :
  StronglySorted leName l →
  StronglySorted leName (insertStable lessByName x l).
Proof.
  induction l as [|y l IH]; simpl; intros Hl.
  - apply StronglySorted_cons. split; [done | constructor].
  - apply StronglySorted_cons in Hl as [Hy Hl].
    destruct (lessByName y x) eqn:E.
    + apply StronglySorted_cons. split; [|by apply IH].
      rewrite Forall_forall in Hy |- *. intros z Hz.
      rewrite insertStable_perm in Hz.
      apply elem_of_cons in Hz as [->|Hz]; [|by apply Hy].
      unfold leName. apply string_lt_ltb_false. by apply string_ltb_lt.
    + apply StronglySorted_cons. split.
      * apply Forall_cons. split; [done|].
        rewrite Forall_forall in Hy |- *. intros z Hz.
        apply leName_trans with y; [done | by apply Hy].
      * apply StronglySorted_cons. by split.
Qed.

Lemma SliceStable_byName_sorted (l : list MachineImage) :
  StronglySorted leName (SliceStable lessByName l).
Proof.
  induction l as [|x l IH]; simpl; [constructor|].
  by apply insertStable_byName_sorted.
Qed.

Lemma leName_sorted_strict (l : list MachineImage) :
  NoDup (Name <$> l) → StronglySorted leName l → StronglySorted ltName l.
Proof.
  induction l as [|x l IH]; intros Hnd Hl; [constructor|].
  rewrite fmap_cons in Hnd. apply NoDup_cons in Hnd as [Hx Hnd].
  apply StronglySorted_cons in Hl as [Hxl Hl].
  apply StronglySorted_cons. split; [|by apply IH].
  rewrite Forall_forall in Hxl. apply Forall_forall. intros y Hy.
  destruct (string_ltb_false _ _ (Hxl y Hy)) as [Heq|Hlt]; [|done].
  destruct Hx. rewrite Heq. by apply list_elem_of_fmap_2.
Qed.

Lemma SliceStable_byName_strict (l : list MachineImage) :
  NoDup (Name <$> l) → StronglySorted ltName (SliceStable lessByName l).
Proof.
  intros Hnd. apply leName_sorted_strict; [|apply SliceStable_byName_sorted].
  by rewrite SliceStable_perm.
Qed.

Section GardenLinuxFirst.
Variable OsNameGardenLinux : string.

Lemma insertStable_GardenLinux x (l : list MachineImage) :
  Name x = OsNameGardenLinux →
  insertStable (lessGardenLinux OsNameGardenLinux) x l = x :: l.
Proof.
  intros Hx. destruct l as [|y l]; simpl; [done|].
  unfold lessGardenLinux. rewrite Hx, String.eqb_refl.
  by rewrite andb_false_r.
Qed.

Lemma insertStable_other x (gl rest : list MachineImage) :
  Name x ≠ OsNameGardenLinux →
  Forall (fun y => Name y = OsNameGardenLinux) gl →
  Forall (fun y => Name y ≠ OsNameGardenLinux) rest →
  insertStable (lessGardenLinux OsNameGardenLinux) x (gl ++ rest)
  = gl ++ x :: rest.
Proof.
  intros Hx Hgl Hrest. induction Hgl as [|y gl Hy Hgl IH]; simpl.
  - destruct Hrest as [|z rest Hz Hrest]; simpl; [done|].
    unfold lessGardenLinux.
    by destruct (String.eqb_spec (Name z) OsNameGardenLinux).
  - unfold lessGardenLinux at 1. rewrite Hy, String.eqb_refl.
    destruct (String.eqb_spec (Name x) OsNameGardenLinux); [done|].
    simpl. by rewrite IH.
Qed.

(** The second sort moves the images named [OsNameGardenLinux] to the
    front and keeps the order of the others. *)
Lemma SliceStable_GardenLinux (l : list MachineImage) :
  SliceStable (lessGardenLinux OsNameGardenLinux) l
  = filter (fun y => Name y = OsNameGardenLinux) l
    ++ filter (fun y => Name y ≠ OsNameGardenLinux) l.
Proof.
  induction l as [|x l IH]; simpl; [done|]. rewrite IH.
  destruct (decide (Name x = OsNameGardenLinux)) as [Hx|Hx].
  - rewrite insertStable_GardenLinux by done.
    rewrite filter_cons_True by done.
    rewrite (filter_cons_False (fun y => Name y ≠ OsNameGardenLinux))
      by naive_solver.
    done.
  - rewrite insertStable_other; [| done | |].
    + rewrite filter_cons_False by done. by rewrite filter_cons_True by done.
    + apply Forall_forall. by intros y [? _]%list_elem_of_filter.
    + apply Forall_forall. by intros y [? _]%list_elem_of_filter.
Qed.

Lemma filter_names (P : string → Prop) `{∀ n, Decision (P n)}
    (l : list MachineImage) :
  Name <$> filter (fun y => P (Name y)) l = filter P (Name <$> l).
Proof.
  induction l as [|x l IH]; [done|]. rewrite fmap_cons.
  destruct (decide (P (Name x))) as [Hx|Hx].
  - rewrite !filter_cons_True by done. by rewrite fmap_cons, IH.
  - by rewrite !filter_cons_False by done.
Qed.

(** The order of a list of names that is sorted strictly once the name
    [OsNameGardenLinux] is moved to the front, and of every list obtained
    from it by dropping names. *)
Lemma promoted_order (ns names : list string) :
  StronglySorted String_as_OT.lt ns →
  names `sublist_of`
    filter (fun n => n = OsNameGardenLinux) ns
    ++ filter (fun n => n ≠ OsNameGardenLinux) ns →
  (∀ i, names !! i = Some OsNameGardenLinux → i = 0)
  ∧ StronglySorted String_as_OT.lt
      (filter (fun n => n ≠ OsNameGardenLinux) names).
Proof.
  intros Hl Hsub.
  assert (NoDup ns) as Hnd.
  { clear Hsub. induction ns as [|x ns IH]; [constructor|].
    apply StronglySorted_cons in Hl as [Hx Hl].
    apply NoDup_cons. split; [|by apply IH].
    intros Hin. rewrite Forall_forall in Hx.
    by destruct (string_lt_irrefl x); apply Hx. }
  apply sublist_app_r in Hsub as (o1 & o2 & -> & H1 & H2).
  assert (Forall (fun n => n = OsNameGardenLinux) o1) as Ho1.
  { apply Forall_forall. intros y Hy.
    eapply elem_of_sublist in Hy; [|done].
    by apply list_elem_of_filter in Hy as [? _]. }
  assert (Forall (fun n => n ≠ OsNameGardenLinux) o2) as Ho2.
  { apply Forall_forall. intros y Hy.
    eapply elem_of_sublist in Hy; [|done].
    by apply list_elem_of_filter in Hy as [? _]. }
  assert (NoDup o1) as Hnd1.
  { apply (sublist_NoDup _ ns); [exact Hnd|].
    etrans; [exact H1 | apply sublist_filter]. }
  assert (length o1 ≤ 1)%nat as Hlen.
  { destruct o1 as [|a [|b o1]]; simpl; [lia | lia |].
    apply Forall_cons in Ho1 as [Ha Ho1].
    apply Forall_cons in Ho1 as [Hb _]. rewrite Ha, Hb in Hnd1.
    apply NoDup_cons in Hnd1 as [Hin _]. destruct Hin. left. }
  split.
  - intros i Hi.
    destruct (decide (i < length o1)) as [Hlt|Hge]; [lia|].
    rewrite lookup_app_r in Hi by lia.
    apply list_elem_of_lookup_2 in Hi.
    rewrite Forall_forall in Ho2. by destruct (Ho2 _ Hi).
  - rewrite filter_app.
    assert (filter (fun n => n ≠ OsNameGardenLinux) o1 = []) as ->.
    { clear -Ho1. induction Ho1 as [|y o1 Hy _ IH]; [done|].
      rewrite filter_cons_False by naive_solver. done. }
    assert (filter (fun n => n ≠ OsNameGardenLinux) o2 = o2) as ->.
    { clear -Ho2. induction Ho2 as [|y o2 Hy _ IH]; [done|].
      rewrite filter_cons_True by done. by rewrite IH. }
    simpl. eapply StronglySorted_sublist; [|exact Hl].
    etrans; [exact H2 | apply sublist_filter].
Qed.
End GardenLinuxFirst.

(** ** The whole computation *)

Lemma convertOsImagesToMachineImages_names (images : list OsImage) :
  NoDup (Name <$> convertOsImagesToMachineImages images).
Proof.
  unfold convertOsImagesToMachineImages. rewrite <- list_fmap_compose.
  apply (NoDup_fst_map_to_list (groupByName images)).
Qed.

Section PipelineProperties.
Context {OsImagesFilterKind : Type} `{EqDecision OsImagesFilterKind}.
Variable OsImagesFilterKindAll : OsImagesFilterKind.
Variable OsNameGardenLinux : string.
Variable filterOsImages :
  list OsImage → list OsImagesFilterKind → list OsImagesFilterKind →
  list OsImage * option error.

(** A slice returned without an error is empty or is the output of the
    enrichment stage on the grouped and sorted images. *)
Lemma ComputeMachineImages_Some lss landscape provider providerLandscape
    disable inc exc out :
  ComputeMachineImages OsImagesFilterKindAll OsNameGardenLinux
    filterOsImages lss landscape provider providerLandscape disable inc exc
  = Returns (Some out, None) →
  out = []
  ∨ ∃ flat,
      getFilteredMachineImages
        (sortMachineImages OsNameGardenLinux
           (convertOsImagesToMachineImages flat))
        disable providerLandscape provider = Returns out.
Proof.
  unfold ComputeMachineImages.
  destruct (validateFilters _ exc); [discriminate|].
  destruct (filterOsImages _ _ _) as [flat [err|]]; [discriminate|].
  destruct (bool_decide (length flat = 0)).
  - intros [= <-]. by left.
  - destruct (getFilteredMachineImages _ _ _ _) as [res|] eqn:E;
      simpl; [|discriminate].
    intros [= <-]. right. by exists flat.
Qed.

(** The names of the grouped images after the first sort. *)
Lemma sorted_names_strict (flat : list OsImage) :
  StronglySorted String_as_OT.lt
    (Name <$> SliceStable lessByName (convertOsImagesToMachineImages flat)).
Proof.
  apply (StronglySorted_fmap Name ltName); [done|].
  apply SliceStable_byName_strict, convertOsImagesToMachineImages_names.
Qed.

(** C1. When a kind is in both filter lists the computation returns the
    nil slice and the error of the validation, whatever the other
    arguments are. *)
Theorem conflicting_filters_fail lss landscape provider providerLandscape
    disable inc exc k :
  k ∈ inc → k ∈ exc →
  ComputeMachineImages OsImagesFilterKindAll OsNameGardenLinux
    filterOsImages lss landscape provider providerLandscape disable inc exc
  = Returns (None, Some ConflictingFilters).
Proof.
  intros Hinc Hexc. unfold ComputeMachineImages.
  destruct inc as [|k0 inc]; [by apply elem_of_nil in Hinc|].
  simpl bool_decide. cbv iota.
  assert (validateFilters (k0 :: inc) exc = Some ConflictingFilters) as ->;
    [|done].
  apply validateFilters_Some. by exists k.
Qed.

(** C10. With an empty include list the validation runs on the list that
    holds the kind All alone: when the exclude list holds All, the
    computation returns the nil slice and the error of the validation,
    although the validation accepts the two lists as they were passed. *)
Theorem empty_include_defaults_to_all lss landscape provider
    providerLandscape disable exc :
  OsImagesFilterKindAll ∈ exc →
  ComputeMachineImages OsImagesFilterKindAll OsNameGardenLinux
    filterOsImages lss landscape provider providerLandscape disable [] exc
  = Returns (None, Some ConflictingFilters)
  ∧ validateFilters [] exc = None.
Proof.
  intros Hall. split; [|done]. unfold ComputeMachineImages. simpl.
  assert (validateFilters [OsImagesFilterKindAll] exc
          = Some ConflictingFilters) as ->; [|done].
  apply validateFilters_Some. exists OsImagesFilterKindAll.
  split; [left | done].
Qed.

(** An empty include list behaves as the list that holds All alone. *)
Lemma empty_include_is_all lss landscape provider providerLandscape
    disable exc :
  ComputeMachineImages OsImagesFilterKindAll OsNameGardenLinux
    filterOsImages lss landscape provider providerLandscape disable [] exc
  = ComputeMachineImages OsImagesFilterKindAll OsNameGardenLinux
      filterOsImages lss landscape provider providerLandscape disable
      [OsImagesFilterKindAll] exc.
Proof. done. Qed.

(** C5. A name of the disable list is the name of no image of the
    output. *)
Theorem disabled_images_absent lss landscape provider providerLandscape
    disable inc exc out name :
  ComputeMachineImages OsImagesFilterKindAll OsNameGardenLinux
    filterOsImages lss landscape provider providerLandscape disable inc exc
  = Returns (Some out, None) →
  name ∈ disable →
  name ∉ Name <$> out.
Proof.
  intros [->|[flat Hout]]%ComputeMachineImages_Some Hd.
  - by intros ?%elem_of_nil.
  - by eapply getFilteredMachineImages_disabled.
Qed.

(** C6. In the output an image named [OsNameGardenLinux] can only be at
    the first position, and the names of the other images are in strictly
    ascending order (lexicographic order of the bytes, as [<] on Go
    strings). *)
Theorem output_order lss landscape provider providerLandscape
    disable inc exc out :
  ComputeMachineImages OsImagesFilterKindAll OsNameGardenLinux
    filterOsImages lss landscape provider providerLandscape disable inc exc
  = Returns (Some out, None) →
  (∀ i, (Name <$> out) !! i = Some OsNameGardenLinux → i = 0)
  ∧ StronglySorted String_as_OT.lt
      (filter (fun n => n ≠ OsNameGardenLinux) (Name <$> out)).
Proof.
  intros [->|[flat Hout]]%ComputeMachineImages_Some.
  - split; [by intros i Hi | constructor].
  - apply (promoted_order OsNameGardenLinux
             (Name <$> SliceStable lessByName
                         (convertOsImagesToMachineImages flat))).
    + apply sorted_names_strict.
    + rewrite <- (filter_names (fun n => n = OsNameGardenLinux)).
      rewrite <- (filter_names (fun n => n ≠ OsNameGardenLinux)).
      rewrite <- fmap_app, <- SliceStable_GardenLinux.
      by eapply getFilteredMachineImages_names_sublist.
Qed.
End PipelineProperties.

(** The first sort returns the one slice that holds the same images with
    their names in strictly ascending order, whatever stable sort computes
    it and whatever the order of the slice is to start with. *)
Lemma SliceStable_byName_unique (l l' : list MachineImage) :
  NoDup (Name <$> l) → l' ≡ₚ l → StronglySorted ltName l' →
  l' = SliceStable lessByName l.
Proof.
  intros Hnd Hperm Hl'.
  apply (StronglySorted_unique_strong ltName); [|done| |].
  - intros x y _ _ Hxy Hyx. destruct (string_lt_irrefl (Name x)).
    by eapply string_lt_trans.
  - by apply SliceStable_byName_strict.
  - by rewrite SliceStable_perm.
Qed.

(** X21. The iteration order of the map of [convertOsImagesToMachineImages]
    does not reach the output: two slices with the same images, whose names are
    pairwise different, are sorted into the same slice. *)
Lemma sortMachineImages_order_irrelevant (GL : string)
  (l1 l2 : list MachineImage) :
  NoDup (Name <$> l1) → l1 ≡ₚ l2 →
  sortMachineImages GL l1 = sortMachineImages GL l2.
Proof.
  intros Hnd Hperm. unfold sortMachineImages. f_equal.
  apply SliceStable_byName_unique.
  - by rewrite <- Hperm.
  - by rewrite SliceStable_perm.
  - by apply SliceStable_byName_strict.
Qed.

(** C2. An image that is not disabled and has a version without a version
    identifier makes the enrichment stage panic: line 83 dereferences the
    nil pointer returned by [getVersion]. The version is not dropped and the
    computation does not complete. *)
Theorem missing_version_identifier_panics imgs disable pl p img v :
  img ∈ imgs → Name img ∉ disable → v ∈ Versions img → getVersion v = None →
  getFilteredMachineImages imgs disable pl p = Panics.
Proof.
  intros Himg Hd Hv Hnone. apply getFilteredMachineImages_Panics.
  by exists img, v.
Qed.

(** ** The stage on the store and the stage on values *)

Lemma inplace_assign_frame (σ σ1 : InPlace.store) (v : nat) k x l :
  InPlace.assignAt σ v k x = Returns σ1 → l ≠ v → σ1 !! l = σ !! l.
Proof.
  unfold InPlace.assignAt. destruct (σ !! v) as [m|]; [|discriminate].
  intros [= <-] Hne. by rewrite lookup_insert_ne.
Qed.

Lemma inplace_assign_fold_frame (entries : list (string * Value))
  (σ σ1 : InPlace.store) (v l : nat) :
  fold_left
    (fun acc entry => σ' ←! acc; InPlace.assignAt σ' v entry.1 entry.2)
    entries (Returns σ) = Returns σ1 →
  l ≠ v → σ1 !! l = σ !! l.
Proof.
  revert σ. induction entries as [|[k x] entries IH]; intros σ; simpl.
  - by intros [= <-].
  - destruct (InPlace.assignAt σ v k x) as [σ2|] eqn:E.
    + intros Hfold Hne. rewrite (IH σ2 Hfold Hne).
      by eapply inplace_assign_frame.
    + intros Hfold. exfalso. clear -Hfold.
      induction entries as [|e entries IH]; simpl in *; [discriminate|auto].
Qed.

Lemma inplace_merge_frame (σ σ1 : InPlace.store) (c v l : nat) :
  InPlace.mergeInPlace σ c v = Returns σ1 → l ≠ v → σ1 !! l = σ !! l.
Proof. apply inplace_assign_fold_frame. Qed.

Lemma inplace_assign_fold (entries : list (string * Value))
  (σ : InPlace.store) (v : nat) (m : gmap string Value) :
  NoDup entries.*1 → σ !! v = Some m →
  fold_left
    (fun acc entry => σ' ←! acc; InPlace.assignAt σ' v entry.1 entry.2)
    entries (Returns σ)
  = Returns (<[v := list_to_map entries ∪ m]> σ).
Proof.
  revert σ m. induction entries as [|[k x] entries IH]; intros σ m Hnd Hv.
  - simpl. rewrite (left_id_L ∅ (∪)). by rewrite insert_id.
  - apply NoDup_cons in Hnd as [Hk Hnd]. simpl.
    unfold InPlace.assignAt at 2. rewrite Hv. simpl.
    rewrite (IH _ (<[k := x]> m)) by (done || apply lookup_insert_eq).
    rewrite insert_insert_eq. do 2 f_equal.
    rewrite <- insert_union_l.
    apply not_elem_of_list_to_map_1 in Hk. by rewrite insert_union_r.
Qed.

(** The merge loop on the store writes into the version object what the
    merge loop on values returns, and leaves every other object as it is. *)
Lemma inplace_merge (σ : InPlace.store) (c v : nat) (cm m : gmap string Value) :
  σ !! c = Some cm → σ !! v = Some m →
  InPlace.mergeInPlace σ c v = Returns (<[v := cm ∪ m]> σ)
  ∧ mergeConfig (σ !! c) (σ !! v) = Returns (Some (cm ∪ m)).
Proof.
  intros Hc Hv. split.
  - unfold InPlace.mergeInPlace. rewrite Hc. simpl.
    rewrite (inplace_assign_fold _ _ _ m)
      by (done || apply NoDup_fst_map_to_list).
    by rewrite list_to_map_to_list.
  - rewrite Hc, Hv. apply mergeConfig_Some.
Qed.

Lemma inplace_findVersion (σ : InPlace.store) num (vs : list nat) :
  findVersion num ((σ !!.) <$> vs) = (σ !!.) <$> InPlace.findVersion σ num vs.
Proof.
  induction vs as [|v vs IH]; [done|]. rewrite fmap_cons. simpl.
  destruct (getVersion (σ !! v)) as [s|]; [|done].
  by destruct (String.eqb s num).
Qed.

Lemma inplace_getVersionConfigInternal (σ : InPlace.store) name num
  (imgs : list InPlace.RefImage) :
  getVersionConfigInternal name num (InPlace.loadImage σ <$> imgs)
  = (σ !!.) <$> InPlace.getVersionConfigInternal σ name num imgs.
Proof.
  induction imgs as [|img imgs IH]; [done|]. rewrite fmap_cons. simpl.
  destruct (String.eqb (InPlace.RName img) name); [|done].
  rewrite inplace_findVersion.
  by destruct (InPlace.findVersion σ num (InPlace.RVersions img)).
Qed.

Lemma inplace_getVersionConfig (σ : InPlace.store) name num
  (pl p : list InPlace.RefImage) :
  getVersionConfig name num (InPlace.loadImage σ <$> pl)
    (InPlace.loadImage σ <$> p)
  = (σ !!.) <$> InPlace.getVersionConfig σ name num pl p.
Proof.
  unfold getVersionConfig, InPlace.getVersionConfig.
  rewrite !inplace_getVersionConfigInternal.
  by destruct (InPlace.getVersionConfigInternal σ name num pl).
Qed.

Lemma inplace_findVersion_Some (σ : InPlace.store) num (vs : list nat) c :
  InPlace.findVersion σ num vs = Some c →
  c ∈ vs ∧ getVersion (σ !! c) = Some num.
Proof.
  induction vs as [|v vs IH]; simpl; [discriminate|].
  destruct (getVersion (σ !! v)) as [s|] eqn:Hv.
  - destruct (String.eqb_spec s num) as [->|Hne].
    + intros [= <-]. split; [left | done].
    + intros H. apply IH in H as [? ?]. split; [by right | done].
  - intros H. apply IH in H as [? ?]. split; [by right | done].
Qed.

Lemma inplace_getVersionConfig_Some (σ : InPlace.store) name num
  (pl p : list InPlace.RefImage) c :
  InPlace.getVersionConfig σ name num pl p = Some c →
  (c ∈ InPlace.addresses pl ∨ c ∈ InPlace.addresses p)
  ∧ getVersion (σ !! c) = Some num.
Proof.
  assert (∀ imgs, InPlace.getVersionConfigInternal σ name num imgs = Some c →
                  c ∈ InPlace.addresses imgs ∧ getVersion (σ !! c) = Some num)
    as Hint.
  { induction imgs as [|img imgs IH]; simpl; [discriminate|].
    unfold InPlace.addresses. rewrite fmap_cons. simpl.
    fold (InPlace.addresses imgs). rewrite elem_of_app.
    destruct (String.eqb (InPlace.RName img) name).
    - destruct (InPlace.findVersion σ num (InPlace.RVersions img))
        as [c'|] eqn:Hf.
      + intros [= ->]. apply inplace_findVersion_Some in Hf as [? ?]. auto.
      + intros H. apply IH in H as [? ?]. auto.
    - intros H. apply IH in H as [? ?]. auto. }
  unfold InPlace.getVersionConfig.
  destruct (InPlace.getVersionConfigInternal σ name num pl) as [c'|] eqn:Hpl.
  - intros [= ->]. apply Hint in Hpl as [? ?]. auto.
  - intros H. apply Hint in H as [? ?]. auto.
Qed.

Lemma inplace_load_agree (σ σ' : InPlace.store) (imgs : list InPlace.RefImage) :
  (∀ l, l ∈ InPlace.addresses imgs → σ' !! l = σ !! l) →
  InPlace.loadImage σ' <$> imgs = InPlace.loadImage σ <$> imgs.
Proof.
  intros Hagree. apply list_fmap_ext. intros i img Himg.
  unfold InPlace.loadImage. f_equal.
  apply list_fmap_ext. intros j l Hl. apply Hagree.
  unfold InPlace.addresses. apply list_elem_of_join.
  exists (InPlace.RVersions img). split.
  - by eapply list_elem_of_lookup_2.
  - apply list_elem_of_fmap_2. by eapply list_elem_of_lookup_2.
Qed.

Lemma inplace_versions_frame name (pl p : list InPlace.RefImage)
  (vs : list nat) (σ : InPlace.store) out σ' :
  InPlace.versionsWithConfig σ name vs pl p = Returns (out, σ') →
  out `sublist_of` vs ∧ ∀ l, l ∉ vs → σ' !! l = σ !! l.
Proof.
  revert σ out σ'. induction vs as [|v vs IH]; intros σ out σ'; simpl.
  - intros [= <- <-]. split; [done|auto].
  - destruct (getVersion (σ !! v)) as [num|]; simpl; [|discriminate].
    destruct (InPlace.getVersionConfig σ name num pl p) as [c|].
    + destruct (InPlace.mergeInPlace σ c v) as [σ1|] eqn:Hm;
        simpl; [|discriminate].
      destruct (InPlace.versionsWithConfig σ1 name vs pl p)
        as [[out1 σ2]|] eqn:Hrest; simpl; [|discriminate].
      intros [= <- <-]. apply IH in Hrest as [Hsub Hframe]. split.
      * by apply sublist_skip.
      * intros l Hl. apply not_elem_of_cons in Hl as [Hne Hl].
        rewrite Hframe by done. by eapply inplace_merge_frame.
    + intros Hrest. apply IH in Hrest as [Hsub Hframe]. split.
      * by apply sublist_cons.
      * intros l Hl. apply not_elem_of_cons in Hl as [Hne Hl]. auto.
Qed.

Lemma inplace_versions_refine name (pl p : list InPlace.RefImage)
  (vs : list nat) (σ : InPlace.store) :
  NoDup vs →
  (∀ l, l ∈ vs → (l ∉ InPlace.addresses pl) ∧ (l ∉ InPlace.addresses p)) →
  match InPlace.versionsWithConfig σ name vs pl p with
  | Returns (out, σ') =>
      versionsWithConfig name ((σ !!.) <$> vs)
        (InPlace.loadImage σ <$> pl) (InPlace.loadImage σ <$> p)
      = Returns ((σ' !!.) <$> out)
  | Panics =>
      versionsWithConfig name ((σ !!.) <$> vs)
        (InPlace.loadImage σ <$> pl) (InPlace.loadImage σ <$> p)
      = Panics
  end.
Proof.
  revert σ. induction vs as [|v vs IH]; intros σ Hnd Hsep; [done|].
  apply NoDup_cons in Hnd as [Hv Hnd].
  assert (∀ l, l ∈ vs →
               (l ∉ InPlace.addresses pl) ∧ (l ∉ InPlace.addresses p))
    as Hsep' by (intros l Hl; apply Hsep; by right).
  destruct (Hsep v) as [Hvpl Hvp]; [left|].
  rewrite fmap_cons. simpl.
  destruct (getVersion (σ !! v)) as [num|] eqn:Hnum; simpl; [|done].
  rewrite inplace_getVersionConfig.
  destruct (InPlace.getVersionConfig σ name num pl p) as [c|] eqn:Hc; simpl.
  - apply inplace_getVersionConfig_Some in Hc as [Hcin Hcnum].
    apply getVersion_Some_inv in Hnum as (m & Hm & _).
    apply getVersion_Some_inv in Hcnum as (cm & Hcm & _).
    destruct (inplace_merge σ c v cm m Hcm Hm) as [-> ->]. simpl.
    set (σ1 := <[v := cm ∪ m]> σ).
    assert (∀ l, l ≠ v → σ1 !! l = σ !! l) as Hσ1
      by (intros l Hl; by apply lookup_insert_ne).
    specialize (IH σ1 Hnd Hsep').
    assert ((σ1 !!.) <$> vs = (σ !!.) <$> vs) as Hvs.
    { apply list_fmap_ext. intros i l Hl. apply Hσ1.
      intros ->. apply Hv. by eapply list_elem_of_lookup_2. }
    assert (InPlace.loadImage σ1 <$> pl = InPlace.loadImage σ <$> pl) as Hpl.
    { apply inplace_load_agree. intros l Hl. apply Hσ1. by intros ->. }
    assert (InPlace.loadImage σ1 <$> p = InPlace.loadImage σ <$> p) as Hp.
    { apply inplace_load_agree. intros l Hl. apply Hσ1. by intros ->. }
    rewrite Hvs, Hpl, Hp in IH.
    destruct (InPlace.versionsWithConfig σ1 name vs pl p)
      as [[out σ']|] eqn:Hrest; simpl; rewrite IH; simpl; [|done].
    apply inplace_versions_frame in Hrest as [_ Hframe].
    rewrite (Hframe v Hv). unfold σ1.
    by rewrite lookup_insert_eq.
  - by apply IH.
Qed.

Lemma inplace_stage_frame disable (pl p : list InPlace.RefImage)
  (imgs : list InPlace.RefImage) (σ : InPlace.store) out σ' :
  InPlace.getFilteredMachineImages σ imgs disable pl p = Returns (out, σ') →
  ∀ l, l ∉ InPlace.addresses imgs → σ' !! l = σ !! l.
Proof.
  revert σ out σ'. induction imgs as [|img imgs IH]; intros σ out σ'; simpl.
  - by intros [= <- <-].
  - unfold InPlace.addresses. rewrite fmap_cons. simpl.
    fold (InPlace.addresses imgs).
    destruct (contains disable (InPlace.RName img)).
    + intros Hrest l Hl. apply not_elem_of_app in Hl as [_ Hl]. eauto.
    + destruct (InPlace.versionsWithConfig σ _ _ pl p)
        as [[vout σ1]|] eqn:Hvs; simpl; [|discriminate].
      destruct (InPlace.getFilteredMachineImages σ1 imgs disable pl p)
        as [[out1 σ2]|] eqn:Hrest; simpl; [|discriminate].
      intros [= _ <-] l Hl. apply not_elem_of_app in Hl as [Hl1 Hl2].
      rewrite (IH _ _ _ Hrest l Hl2).
      by apply (inplace_versions_frame _ _ _ _ _ _ _ Hvs).
Qed.

(** X22. On catalogs in which no object is reached twice, the enrichment
    stage on values returns the images that the stage on the store leaves behind:
    the slices it returns, read in the store it ends with. *)
Theorem inplace_stage_refines disable (pl p imgs : list InPlace.RefImage)
  (σ : InPlace.store) :
  InPlace.separated imgs pl p →
  match InPlace.getFilteredMachineImages σ imgs disable pl p with
  | Returns (out, σ') =>
      getFilteredMachineImages (InPlace.loadImage σ <$> imgs) disable
        (InPlace.loadImage σ <$> pl) (InPlace.loadImage σ <$> p)
      = Returns (InPlace.loadImage σ' <$> out)
  | Panics =>
      getFilteredMachineImages (InPlace.loadImage σ <$> imgs) disable
        (InPlace.loadImage σ <$> pl) (InPlace.loadImage σ <$> p)
      = Panics
  end.
Proof.
  revert σ. induction imgs as [|img imgs IH]; intros σ [Hnd Hsep]; [done|].
  unfold InPlace.addresses in Hnd, Hsep. rewrite fmap_cons in Hnd, Hsep.
  simpl in Hnd, Hsep. fold (InPlace.addresses imgs) in Hnd, Hsep.
  apply NoDup_app in Hnd as (Hnd1 & Hdisj & Hnd2).
  assert (InPlace.separated imgs pl p) as Hrest.
  { split; [done|]. intros l Hl. apply Hsep, elem_of_app. by right. }
  rewrite fmap_cons. simpl.
  destruct (contains disable (InPlace.RName img)); [by apply IH|].
  pose proof (inplace_versions_refine (InPlace.RName img) pl p
                (InPlace.RVersions img) σ Hnd1) as Hinner.
  destruct (InPlace.versionsWithConfig σ _ _ pl p)
    as [[vout σ1]|] eqn:Hvs; simpl; rewrite Hinner; simpl; try done.
  2, 3: intros l Hl; apply Hsep, elem_of_app; by left.
  apply inplace_versions_frame in Hvs as [Hsub Hframe1].
  specialize (IH σ1 Hrest).
  assert (InPlace.loadImage σ1 <$> imgs = InPlace.loadImage σ <$> imgs) as Hi.
  { apply inplace_load_agree. intros l Hl. apply Hframe1.
    intros Hl'. by apply (Hdisj l). }
  assert (InPlace.loadImage σ1 <$> pl = InPlace.loadImage σ <$> pl) as Hpl.
  { apply inplace_load_agree. intros l Hl. apply Hframe1.
    intros Hl'. destruct (Hsep l) as [? _]; [|done].
    apply elem_of_app. by left. }
  assert (InPlace.loadImage σ1 <$> p = InPlace.loadImage σ <$> p) as Hp.
  { apply inplace_load_agree. intros l Hl. apply Hframe1.
    intros Hl'. destruct (Hsep l) as [_ ?]; [|done].
    apply elem_of_app. by left. }
  rewrite Hi, Hpl, Hp in IH.
  destruct (InPlace.getFilteredMachineImages σ1 imgs disable pl p)
    as [[out σ']|] eqn:Hstage; simpl; rewrite IH; simpl; [|done].
  assert ((σ' !!.) <$> vout = (σ1 !!.) <$> vout) as Hvout.
  { apply list_fmap_ext. intros i l Hl.
    apply (inplace_stage_frame _ _ _ _ _ _ _ Hstage).
    intros Hl'. apply (Hdisj l); [|done].
    eapply elem_of_sublist; [|exact Hsub]. by eapply list_elem_of_lookup_2. }
  rewrite !length_fmap.
  destruct (bool_decide (0 < length vout)); [|done].
  rewrite fmap_cons. unfold InPlace.loadImage at 2. simpl.
  by rewrite Hvout.
Qed.

(** Without separation the two stages differ: when one object is the
    version of two images, the merge for the second image is seen through
    the first image as well. *)
Example inplace_shared_object :
  (∃ out σ',
     InPlace.getFilteredMachineImages sharedStore sharedImages []
       [] sharedProvider = Returns (out, σ')
     ∧ InPlace.loadImage σ' <$> out
       = [ mkMachineImage "Debian" [versionWith "1" "arch" "arm64"];
           mkMachineImage "Ubuntu" [versionWith "1" "arch" "arm64"] ])
  ∧ getFilteredMachineImages (InPlace.loadImage sharedStore <$> sharedImages)
      [] [] (InPlace.loadImage sharedStore <$> sharedProvider)
    = Returns [ mkMachineImage "Debian" [versionWith "1" "arch" "amd64"];
                mkMachineImage "Ubuntu" [versionWith "1" "arch" "arm64"] ].
Proof.
  split; [|vm_compute; reflexivity].
  destruct (InPlace.getFilteredMachineImages sharedStore sharedImages []
              [] sharedProvider) as [[out σ']|] eqn:E;
    vm_compute in E; [|discriminate].
  exists out, σ'. split; [done|]. injection E as <- <-.
  vm_compute. reflexivity.
Qed.

(** ** The theorems at the example catalogs *)

Lemma conflicting_filters_fail_witness :
  "Latest" ∈ ["All"; "Latest"] ∧ "Latest" ∈ ["Latest"]
  ∧ ComputeMachineImages "All" "GardenLinux" keepAll
      exampleLss exampleLandscape exampleProvider exampleProviderLandscape
      [] ["All"; "Latest"] ["Latest"]
    = Returns (None, Some ConflictingFilters).
Proof.
  assert ("Latest" ∈ ["All"; "Latest"]) as Hinc by (right; left).
  assert ("Latest" ∈ ["Latest"]) as Hexc by left.
  split; [exact Hinc|]. split; [exact Hexc|].
  exact (conflicting_filters_fail "All" "GardenLinux" keepAll
           exampleLss exampleLandscape exampleProvider
           exampleProviderLandscape [] _ _ "Latest" Hinc Hexc).
Defined.

Lemma missing_version_identifier_panics_witness :
  getVersion unidentified = None
  ∧ getFilteredMachineImages [mkMachineImage "Ubuntu" [unidentified]] [] [] []
    = Panics
  ∧ ComputeMachineImages "All" "GardenLinux" keepAll
      [] [mkMachineImage "Ubuntu" [unidentified]] [] [] [] [] []
    = Panics.
Proof.
  split; [vm_compute; reflexivity|]. split; [|vm_compute; reflexivity].
  apply (missing_version_identifier_panics
           [mkMachineImage "Ubuntu" [unidentified]] [] [] []
           (mkMachineImage "Ubuntu" [unidentified]) unidentified).
  - left.
  - apply not_elem_of_nil.
  - left.
  - vm_compute. reflexivity.
Defined.


Lemma getVersionConfig_landscape_precedence_witness :
  hasRecord exampleProviderLandscape "Ubuntu" "20.04"
  ∧ hasRecord exampleProvider "Ubuntu" "20.04"
  ∧ ∃ c, getVersionConfig "Ubuntu" "20.04" exampleProviderLandscape
           exampleProvider = Some c
         ∧ getVersionConfigInternal "Ubuntu" "20.04" exampleProviderLandscape
           = Some c
         ∧ isRecord exampleProviderLandscape "Ubuntu" "20.04" c.
Proof.
  assert (hasRecord exampleProviderLandscape "Ubuntu" "20.04") as Hpl.
  { exists (versionWith "20.04" "arch" "arm64"),
      (mkMachineImage "Ubuntu" [versionWith "20.04" "arch" "arm64"]).
    repeat split; left. }
  split; [exact Hpl|]. split.
  - exists (versionWith "20.04" "arch" "amd64"),
      (mkMachineImage "Ubuntu" [versionWith "20.04" "arch" "amd64"]).
    repeat split; left.
  - exact (proj1 (getVersionConfig_landscape_precedence "Ubuntu" "20.04"
                    exampleProviderLandscape exampleProvider) Hpl).
Defined.

Lemma disabled_images_absent_witness :
  ComputeMachineImages "All" "GardenLinux" keepAll
    exampleLss exampleLandscape exampleProvider exampleProviderLandscape
    ["Flatcar"] [] []
  = Returns
      (Some [ mkMachineImage "GardenLinux" [versionWith "1.0" "arch" "amd64"];
              mkMachineImage "Ubuntu" [versionWith "20.04" "arch" "arm64"] ],
       None)
  ∧ "Flatcar" ∉
      Name <$> [ mkMachineImage "GardenLinux" [versionWith "1.0" "arch" "amd64"];
                 mkMachineImage "Ubuntu" [versionWith "20.04" "arch" "arm64"] ].
Proof.
  assert (ComputeMachineImages "All" "GardenLinux" keepAll
            exampleLss exampleLandscape exampleProvider
            exampleProviderLandscape ["Flatcar"] [] []
          = Returns
              (Some [ mkMachineImage "GardenLinux"
                        [versionWith "1.0" "arch" "amd64"];
                      mkMachineImage "Ubuntu"
                        [versionWith "20.04" "arch" "arm64"] ],
               None)) as Hout by (vm_compute; reflexivity).
  split; [exact Hout|].
  apply (disabled_images_absent _ _ _ _ _ _ _ _ _ _ _ "Flatcar" Hout). left.
Defined.

Lemma output_order_witness :
  ComputeMachineImages "All" "GardenLinux" keepAll
    exampleLss exampleLandscape exampleProvider exampleProviderLandscape
    [] [] []
  = Returns (Some exampleOutput, None)
  ∧ (∀ i, (Name <$> exampleOutput) !! i = Some "GardenLinux" → i = 0)
  ∧ StronglySorted String_as_OT.lt
      (filter (fun n => n ≠ "GardenLinux") (Name <$> exampleOutput)).
Proof.
  assert (ComputeMachineImages "All" "GardenLinux" keepAll
            exampleLss exampleLandscape exampleProvider
            exampleProviderLandscape [] [] []
          = Returns (Some exampleOutput, None)) as Hout
    by (vm_compute; reflexivity).
  split; [exact Hout|].
  exact (output_order _ _ _ _ _ _ _ _ _ _ _ Hout).
Defined.


Lemma empty_include_defaults_to_all_witness :
  "All" ∈ ["All"]
  ∧ ComputeMachineImages "All" "GardenLinux" keepAll
      exampleLss exampleLandscape exampleProvider exampleProviderLandscape
      [] [] ["All"]
    = Returns (None, Some ConflictingFilters)
  ∧ validateFilters [] ["All"] = None.
Proof.
  assert ("All" ∈ ["All"]) as Hall by left.
  split; [exact Hall|].
  exact (empty_include_defaults_to_all "All" "GardenLinux" keepAll
           exampleLss exampleLandscape exampleProvider
           exampleProviderLandscape [] ["All"] Hall).
Defined.

(** ** Further properties of the helpers *)

(** X1. [contains] answers membership in the slice, and a slice built by
    appending contains a string when one of the two parts does. *)
Theorem contains_membership (s1 s2 : list string) (str : string) :
  (contains s1 str = true ↔ str ∈ s1)
  ∧ (contains s1 str = false ↔ str ∉ s1)
  ∧ contains (s1 ++ s2) str = contains s1 str || contains s2 str.
Proof.
  split; [apply contains_spec|]. split.
  - rewrite <- contains_spec. by destruct (contains s1 str).
  - induction s1 as [|v s1 IH]; simpl; [done|].
    by destruct (String.eqb v str).
Qed.

(** X2. [validateFilters] returns the nil error exactly when no kind is in
    both lists and the conflict error otherwise; the answer does not depend
    on which list is which, and an empty list on either side is accepted. *)
Theorem validateFilters_disjoint {K : Type} `{EqDecision K} (inc exc : list K) :
  (validateFilters inc exc = None ↔ ∀ k, k ∈ inc → k ∉ exc)
  ∧ (validateFilters inc exc ≠ None →
     validateFilters inc exc = Some ConflictingFilters)
  ∧ validateFilters inc exc = validateFilters exc inc
  ∧ validateFilters inc [] = None
  ∧ validateFilters [] exc = None.
Proof.
  assert (∀ a b : list K,
            validateFilters a b = None ↔ ∀ k, k ∈ a → k ∉ b) as Hnone.
  { intros a b. rewrite validateFilters_None. split.
    - intros Hno k Ha Hb. apply Hno. by exists k.
    - intros Hno (k & Ha & Hb). by apply (Hno k). }
  assert (∀ a b : list K,
            validateFilters a b = None
            ∨ validateFilters a b = Some ConflictingFilters) as Hcases.
  { intros a b. unfold validateFilters. destruct (existsb _ a); auto. }
  split; [apply Hnone|]. split; [|split; [|split]].
  - destruct (Hcases inc exc); [done | auto].
  - destruct (Hcases inc exc) as [H1|H1], (Hcases exc inc) as [H2|H2];
      rewrite H1, H2; try done; exfalso.
    + apply validateFilters_Some in H2 as (k & ? & ?).
      by apply (proj1 (Hnone _ _) H1 k).
    + apply validateFilters_Some in H1 as (k & ? & ?).
      by apply (proj1 (Hnone _ _) H2 k).
  - apply Hnone. intros k _. apply not_elem_of_nil.
  - apply Hnone. by intros k ?%elem_of_nil.
Qed.


(** ** The grouper and the flattener *)

Lemma versionsNamed_cons (n : string) (o : OsImage) (l : list OsImage) :
  versionsNamed n (o :: l)
  = if decide (OsName o = n) then Version o :: versionsNamed n l
    else versionsNamed n l.
Proof.
  unfold versionsNamed. destruct (decide (OsName o = n)) as [Ho|Ho].
  - by rewrite filter_cons_True by done.
  - by rewrite filter_cons_False by done.
Qed.

Lemma group_fold_lookup (images : list OsImage)
  (m : gmap string (list MachineImageVersion)) (n : string) :
  fold_left
    (fun m image =>
       let versions :=
         match m !! OsName image with
         | None => [Version image]
         | Some versions => versions ++ [Version image]
         end in
       <[OsName image := versions]> m)
    images m !! n
  = match m !! n with
    | Some vs => Some (vs ++ versionsNamed n images)
    | None => match versionsNamed n images with
              | [] => None
              | vs => Some vs
              end
    end.
Proof.
  revert m. induction images as [|o images IH]; intros m.
  - simpl. unfold versionsNamed. simpl.
    destruct (m !! n); [by rewrite app_nil_r | done].
  - simpl fold_left. rewrite IH, versionsNamed_cons.
    destruct (decide (OsName o = n)) as [<-|Hne].
    + rewrite lookup_insert_eq.
      destruct (m !! OsName o) as [vs|]; [|done].
      by rewrite <- app_assoc.
    + by rewrite lookup_insert_ne by done.
Qed.

Lemma groupByName_lookup (images : list OsImage) (n : string) :
  groupByName images !! n
  = match versionsNamed n images with
    | [] => None
    | vs => Some vs
    end.
Proof.
  unfold groupByName. rewrite group_fold_lookup. by rewrite lookup_empty.
Qed.

Lemma convert_elem_of (images : list OsImage) (img : MachineImage) :
  img ∈ convertOsImagesToMachineImages images ↔
  groupByName images !! Name img = Some (Versions img).
Proof.
  unfold convertOsImagesToMachineImages. rewrite list_elem_of_fmap. split.
  - intros ([n vs] & -> & Hin). by apply elem_of_map_to_list in Hin.
  - intros Hm. exists (Name img, Versions img). split; [by destruct img|].
    by apply elem_of_map_to_list.
Qed.

Lemma convert_elem_of_versions (images : list OsImage) (img : MachineImage) :
  img ∈ convertOsImagesToMachineImages images ↔
  Versions img = versionsNamed (Name img) images ∧ Versions img ≠ [].
Proof.
  rewrite convert_elem_of, groupByName_lookup.
  destruct (versionsNamed (Name img) images) as [|v vs] eqn:E.
  - split; [discriminate|]. by intros [-> ?].
  - split; [by intros [= <-] | by intros [-> _]].
Qed.

Lemma convert_names_cover (images : list OsImage) (o : OsImage) :
  o ∈ images → OsName o ∈ Name <$> convertOsImagesToMachineImages images.
Proof.
  intros Ho. apply list_elem_of_fmap.
  exists (mkMachineImage (OsName o) (versionsNamed (OsName o) images)).
  split; [done|]. apply convert_elem_of_versions. split; [done|]. simpl.
  unfold versionsNamed. intros Hnil. apply fmap_nil_inv in Hnil.
  assert (o ∈ filter (fun o' => OsName o' = OsName o) images) as Hf
    by by apply list_elem_of_filter.
  rewrite Hnil in Hf. by apply elem_of_nil in Hf.
Qed.

(** X4. [convertOsImagesToMachineImages] returns one image per name of the
    flat list, and the versions of an image are the versions of the entries
    with its name, in the order of the flat list; no image is empty. *)
Theorem convertOsImagesToMachineImages_groups (images : list OsImage) :
  NoDup (Name <$> convertOsImagesToMachineImages images)
  ∧ (∀ img, img ∈ convertOsImagesToMachineImages images ↔
            Versions img = versionsNamed (Name img) images
            ∧ Versions img ≠ [])
  ∧ (∀ o, o ∈ images →
          OsName o ∈ Name <$> convertOsImagesToMachineImages images).
Proof.
  split; [apply convertOsImagesToMachineImages_names|].
  split; [apply convert_elem_of_versions | apply convert_names_cover].
Qed.

Lemma flat_versionsNamed (n : string) (l : list OsImage) :
  mkOsImage n <$> versionsNamed n l = filter (fun o => OsName o = n) l.
Proof.
  induction l as [|o l IH]; [done|]. rewrite versionsNamed_cons.
  destruct (decide (OsName o = n)) as [Ho|Ho].
  - rewrite filter_cons_True by done. rewrite fmap_cons, IH.
    destruct o as [n' v]. simpl in Ho. by rewrite Ho.
  - by rewrite filter_cons_False by done.
Qed.

Lemma versionsNamed_filter_other (n n' : string) (l : list OsImage) :
  n' ≠ n →
  versionsNamed n' (filter (fun o => OsName o ≠ n) l) = versionsNamed n' l.
Proof.
  intros Hne. induction l as [|o l IH]; [done|].
  destruct (decide (OsName o = n)) as [Ho|Ho].
  - rewrite filter_cons_False by (intros H; by apply H).
    rewrite versionsNamed_cons, IH.
    destruct (decide (OsName o = n')); [congruence|done].
  - rewrite filter_cons_True by done. rewrite !versionsNamed_cons.
    by rewrite IH.
Qed.

Lemma flat_groups_perm (ns : list string) (l : list OsImage) :
  NoDup ns → (∀ o, o ∈ l → OsName o ∈ ns) →
  flatImages ((fun n => mkMachineImage n (versionsNamed n l)) <$> ns) ≡ₚ l.
Proof.
  revert l. induction ns as [|n ns IH]; intros l Hnd Hl.
  - destruct l as [|o l]; [done|].
    exfalso. apply (not_elem_of_nil (OsName o)), Hl. left.
  - apply NoDup_cons in Hnd as [Hn Hnd]. rewrite fmap_cons. simpl.
    rewrite flat_versionsNamed.
    etrans; [|apply (filter_app_complement (fun o => OsName o = n) l)].
    apply Permutation_app_head.
    rewrite <- (IH (filter (fun o => OsName o ≠ n) l) Hnd).
    + assert ((fun n0 => mkMachineImage n0 (versionsNamed n0 l)) <$> ns
              = (fun n0 => mkMachineImage n0
                   (versionsNamed n0 (filter (fun o => OsName o ≠ n) l)))
                  <$> ns) as ->; [|done].
      apply list_fmap_ext. intros i n' Hn'.
      rewrite versionsNamed_filter_other; [done|].
      intros ->. apply Hn. by eapply list_elem_of_lookup_2.
    + intros o [Ho Hin]%list_elem_of_filter.
      apply Hl, elem_of_cons in Hin as [?|?]; [done|done].
Qed.

(** X5. Flattening the grouped images gives back the entries of the flat
    list, each exactly as often as before: the grouper neither loses nor
    invents a (name, version) pair. *)
Theorem flatImages_of_groups (images : list OsImage) :
  flatImages (convertOsImagesToMachineImages images) ≡ₚ images.
Proof.
  assert (convertOsImagesToMachineImages images
          = (fun n => mkMachineImage n (versionsNamed n images))
              <$> (map_to_list (groupByName images)).*1) as ->.
  { unfold convertOsImagesToMachineImages. rewrite <- list_fmap_compose.
    apply list_fmap_ext. intros i [n vs] Hi. simpl.
    apply list_elem_of_lookup_2, elem_of_map_to_list in Hi.
    rewrite groupByName_lookup in Hi.
    destruct (versionsNamed n images); [discriminate|]. by injection Hi as <-. }
  apply flat_groups_perm; [apply NoDup_fst_map_to_list|].
  intros o Ho. pose proof (convert_names_cover images o Ho) as Hnames.
  unfold convertOsImagesToMachineImages in Hnames.
  by rewrite <- list_fmap_compose in Hnames.
Qed.

Lemma versionsNamed_app (n : string) (l1 l2 : list OsImage) :
  versionsNamed n (l1 ++ l2) = versionsNamed n l1 ++ versionsNamed n l2.
Proof. unfold versionsNamed. by rewrite filter_app, fmap_app. Qed.

Lemma versionsNamed_block (n n' : string) (vs : list MachineImageVersion) :
  versionsNamed n (mkOsImage n' <$> vs) = if decide (n' = n) then vs else [].
Proof.
  induction vs as [|v vs IH]; [by destruct (decide (n' = n))|].
  rewrite fmap_cons, versionsNamed_cons, IH. simpl.
  by destruct (decide (n' = n)).
Qed.

Lemma versionsNamed_flat_absent (n : string) (imgs : list MachineImage) :
  n ∉ Name <$> imgs → versionsNamed n (flatImages imgs) = [].
Proof.
  induction imgs as [|a imgs IH]; [done|]. rewrite fmap_cons. simpl.
  intros [Hne Hn]%not_elem_of_cons.
  rewrite versionsNamed_app, versionsNamed_block, IH by done.
  destruct (decide (Name a = n)); [congruence|done].
Qed.

Lemma versionsNamed_flat (imgs : list MachineImage) (img : MachineImage) :
  NoDup (Name <$> imgs) → img ∈ imgs →
  versionsNamed (Name img) (flatImages imgs) = Versions img.
Proof.
  induction imgs as [|a imgs IH]; [by intros _ ?%elem_of_nil|].
  rewrite fmap_cons. simpl. intros [Ha Hnd]%NoDup_cons Hin.
  rewrite versionsNamed_app, versionsNamed_block.
  apply elem_of_cons in Hin as [->|Hin].
  - rewrite decide_True by done.
    by rewrite versionsNamed_flat_absent, app_nil_r.
  - rewrite decide_False, IH; [done..|].
    intros Heq. apply Ha. rewrite Heq. by apply list_elem_of_fmap_2.
Qed.

(** X6. Grouping the flattened catalog gives back the images of the
    catalog, each once, when the images have pairwise different names and
    none of them is without versions. *)
Theorem groups_of_flatImages (imgs : list MachineImage) :
  NoDup (Name <$> imgs) → (∀ img, img ∈ imgs → Versions img ≠ []) →
  convertOsImagesToMachineImages (flatImages imgs) ≡ₚ imgs.
Proof.
  intros Hnd Hne. apply NoDup_Permutation.
  - eapply NoDup_fmap_1, convertOsImagesToMachineImages_names.
  - by eapply NoDup_fmap_1.
  - intros img. rewrite convert_elem_of_versions. split.
    + intros [Hvs Hnonempty].
      destruct (decide (Name img ∈ Name <$> imgs)) as [Hin|Hout].
      * apply list_elem_of_fmap in Hin as (img0 & Hn & Hin).
        rewrite Hn, (versionsNamed_flat imgs img0 Hnd Hin) in Hvs.
        destruct img as [n vs], img0 as [n0 vs0]. simpl in *. by subst.
      * rewrite versionsNamed_flat_absent in Hvs by done. done.
    + intros Hin. rewrite (versionsNamed_flat imgs img Hnd Hin). auto.
Qed.

(** ** The deduplicator on two catalogs *)

Lemma dedup_fold_acc (l acc : list OsImage) :
  fold_left dedupStep l acc
  = acc ++ filter (fun x => x ∉ acc) (fold_left dedupStep l []).
Proof.
  induction l as [|x l IH] using rev_ind; [by rewrite app_nil_r|].
  rewrite !fold_left_app. simpl. rewrite IH.
  set (r := fold_left dedupStep l []).
  destruct (decide (x ∈ r)) as [Hr|Hr].
  - rewrite (dedupStep_in r) by done. apply dedupStep_in.
    destruct (decide (x ∈ acc)) as [Ha|Ha].
    + apply elem_of_app. by left.
    + apply elem_of_app. right. by apply list_elem_of_filter.
  - rewrite (dedupStep_notin r) by done. rewrite filter_app.
    destruct (decide (x ∈ acc)) as [Ha|Ha].
    + rewrite (filter_cons_False _ x []) by (intros H; by apply H).
      rewrite app_nil_r. apply dedupStep_in. apply elem_of_app. by left.
    + rewrite (filter_cons_True _ x []) by done.
      rewrite dedupStep_notin; [by rewrite <- app_assoc|].
      intros [?|[_ ?]%list_elem_of_filter]%elem_of_app; done.
Qed.

Lemma removeDuplicates_app_filter (l1 l2 : list OsImage) :
  removeDuplicates (l1 ++ l2)
  = removeDuplicates l1
    ++ filter (fun x => x ∉ l1) (removeDuplicates l2).
Proof.
  unfold removeDuplicates. rewrite fold_left_app.
  change (fold_left dedupStep l2 (fold_left dedupStep l1 [])
          = fold_left dedupStep l1 []
            ++ filter (fun x => x ∉ l1) (fold_left dedupStep l2 [])).
  rewrite dedup_fold_acc. f_equal. apply list_filter_iff.
  intros x. change (x ∉ removeDuplicates l1 ↔ x ∉ l1).
  by rewrite removeDuplicates_elem_of.
Qed.

(** X7. On two lists one after the other [removeDuplicates] keeps what it
    keeps of the first list, followed by what it keeps of the second list
    that is not an entry of the first: entries of the landscape catalog come
    first, and an LSS entry survives only when the landscape catalog has no
    equal entry. It keeps every entry at least once and adds none. *)
Theorem removeDuplicates_app (l1 l2 : list OsImage) :
  removeDuplicates (l1 ++ l2)
  = removeDuplicates l1
    ++ filter (fun x => x ∉ l1) (removeDuplicates l2)
  ∧ ∀ x, x ∈ removeDuplicates (l1 ++ l2) ↔ x ∈ l1 ∨ x ∈ l2.
Proof.
  split; [apply removeDuplicates_app_filter|].
  intros x. by rewrite removeDuplicates_elem_of, elem_of_app.
Qed.

(** ** The stages of [ComputeMachineImages] *)

Section PipelineStages.
Context {OsImagesFilterKind : Type} `{EqDecision OsImagesFilterKind}.
Variable OsImagesFilterKindAll : OsImagesFilterKind.
Variable OsNameGardenLinux : string.
Variable filterOsImages :
  list OsImage → list OsImagesFilterKind → list OsImagesFilterKind →
  list OsImage * option error.

Lemma filter_none {A : Type} (P : A → Prop) `{∀ x, Decision (P x)}
    (l : list A) :
  (∀ x, x ∈ l → ¬ P x) → filter P l = [].
Proof.
  induction l as [|x l IH]; intros Hl; [done|].
  rewrite filter_cons_False by (apply Hl; left).
  apply IH. intros y Hy. apply Hl. by right.
Qed.

Lemma ComputeMachineImages_stages lss landscape provider providerLandscape
    disable inc exc :
  ComputeMachineImages OsImagesFilterKindAll OsNameGardenLinux
    filterOsImages lss landscape provider providerLandscape disable inc exc
  = match validateFilters
            (effectiveIncludeFilters OsImagesFilterKindAll inc) exc with
    | Some err => Returns (None, Some err)
    | None =>
        match filterOsImages (mergedFlatImages lss landscape)
                (effectiveIncludeFilters OsImagesFilterKindAll inc) exc with
        | (_, Some err) => Returns (None, Some err)
        | (flat, None) =>
            if bool_decide (length flat = 0) then Returns (Some [], None)
            else
              out ←! getFilteredMachineImages
                       (sortMachineImages OsNameGardenLinux
                          (convertOsImagesToMachineImages flat))
                       disable providerLandscape provider;
              Returns (Some out, None)
        end
    end.
Proof. reflexivity. Qed.

(** X8. Once the validation has passed, an error of the filter is returned
    as it is with the nil slice, and an empty filtered list gives the empty
    (non-nil) slice; in both cases no provider catalog is looked at, so a
    version without identifier cannot make the call panic. *)
Theorem ComputeMachineImages_early_returns lss landscape provider
    providerLandscape disable inc exc flat e :
  validateFilters (effectiveIncludeFilters OsImagesFilterKindAll inc) exc
  = None →
  filterOsImages (mergedFlatImages lss landscape)
    (effectiveIncludeFilters OsImagesFilterKindAll inc) exc = (flat, e) →
  (∀ err, e = Some err →
     ComputeMachineImages OsImagesFilterKindAll OsNameGardenLinux
       filterOsImages lss landscape provider providerLandscape disable
       inc exc = Returns (None, Some err))
  ∧ (e = None → flat = [] →
     ComputeMachineImages OsImagesFilterKindAll OsNameGardenLinux
       filterOsImages lss landscape provider providerLandscape disable
       inc exc = Returns (Some [], None)).
Proof.
  intros Hval Hfilter. rewrite ComputeMachineImages_stages, Hval, Hfilter.
  split; [by intros err -> | by intros -> ->].
Qed.

(** X9. LSS images whose (name, version) pairs are all pairs of the
    landscape catalog change nothing: the call returns what it returns
    without them. *)
Theorem lss_duplicates_ignored lss landscape provider providerLandscape
    disable inc exc :
  (∀ o, o ∈ flatImages lss → o ∈ flatImages landscape) →
  ComputeMachineImages OsImagesFilterKindAll OsNameGardenLinux
    filterOsImages lss landscape provider providerLandscape disable inc exc
  = ComputeMachineImages OsImagesFilterKindAll OsNameGardenLinux
      filterOsImages [] landscape provider providerLandscape disable inc exc.
Proof.
  intros Hdup. rewrite !ComputeMachineImages_stages.
  assert (mergedFlatImages lss landscape = mergedFlatImages [] landscape)
    as ->; [|done].
  unfold mergedFlatImages. rewrite !removeDuplicates_app_filter.
  f_equal. rewrite (filter_none _ (removeDuplicates (flatImages lss))); [done|].
  intros y Hy Hne. rewrite removeDuplicates_elem_of in Hy.
  apply Hne. by apply Hdup.
Qed.

(** X10. The images of the returned slice have pairwise different names,
    and every one of them has at least one version. *)
Theorem ComputeMachineImages_output_wellformed lss landscape provider
    providerLandscape disable inc exc out :
  ComputeMachineImages OsImagesFilterKindAll OsNameGardenLinux
    filterOsImages lss landscape provider providerLandscape disable inc exc
  = Returns (Some out, None) →
  NoDup (Name <$> out) ∧ ∀ img, img ∈ out → Versions img ≠ [].
Proof.
  intros [->|[flat Hout]]%ComputeMachineImages_Some.
  - split; [constructor | by intros img ?%elem_of_nil].
  - split.
    + eapply sublist_NoDup;
        [|by eapply getFilteredMachineImages_names_sublist].
      unfold sortMachineImages. rewrite !SliceStable_perm.
      apply convertOsImagesToMachineImages_names.
    + intros img Himg.
      apply getFilteredMachineImages_Returns in Hout as [_ ->].
      apply list_elem_of_omap in Himg as (img0 & _ & He).
      by apply enrichImage_Some in He as (_ & _ & _ & ?).
Qed.
End PipelineStages.

(** ** Further properties of the enrichment stage *)


Lemma getVersionConfig_non_nil name num pl p config :
  getVersionConfig name num pl p = Some config → ∃ c, config = Some c.
Proof.
  intros Hc%getVersionConfig_getVersion.
  apply getVersion_Some_inv in Hc as (c & -> & _). by exists c.
Qed.







(** X14. The enrichment stage returns exactly when every version of every
    image that is not disabled has a version identifier; versions of
    disabled images are never looked at. *)
Theorem getFilteredMachineImages_returns_iff imgs disable pl p :
  (∃ out, getFilteredMachineImages imgs disable pl p = Returns out) ↔
  (∀ img v, img ∈ imgs → Name img ∉ disable → v ∈ Versions img →
            getVersion v ≠ None).
Proof.
  split.
  - intros [out Hout] img v Himg Hd Hv Hnone.
    assert (getFilteredMachineImages imgs disable pl p = Panics) as Hp.
    { apply getFilteredMachineImages_Panics. by exists img, v. }
    congruence.
  - intros Hall.
    destruct (getFilteredMachineImages imgs disable pl p) as [out|] eqn:E;
      [by exists out|].
    apply getFilteredMachineImages_Panics in E
      as (img & v & Himg & Hd & Hv & Hnone).
    by destruct (Hall img v).
Qed.

(** ** From the filtered list to the output *)

Lemma versionsNamed_elem_of (n : string) (v : MachineImageVersion)
  (l : list OsImage) :
  v ∈ versionsNamed n l ↔ mkOsImage n v ∈ l.
Proof.
  unfold versionsNamed. rewrite list_elem_of_fmap. split.
  - intros (o & -> & [Ho Hin]%list_elem_of_filter).
    destruct o as [n' v']. simpl in *. by subst.
  - intros Hin. exists (mkOsImage n v). split; [done|].
    by apply list_elem_of_filter.
Qed.

Lemma sortMachineImages_elem_of (GL : string) (l : list MachineImage) img :
  img ∈ sortMachineImages GL l ↔ img ∈ l.
Proof. unfold sortMachineImages. by rewrite !SliceStable_perm. Qed.

Section PipelineEndToEnd.
Context {OsImagesFilterKind : Type} `{EqDecision OsImagesFilterKind}.
Variable OsImagesFilterKindAll : OsImagesFilterKind.
Variable OsNameGardenLinux : string.
Variable filterOsImages :
  list OsImage → list OsImagesFilterKind → list OsImagesFilterKind →
  list OsImage * option error.

End PipelineEndToEnd.

(** ** Further properties of the lookup and of the merge *)

Lemma findVersion_first (num : string) (vpre vpost : list MachineImageVersion)
  (c : MachineImageVersion) :
  (∀ c', c' ∈ vpre → getVersion c' ≠ Some num) →
  getVersion c = Some num →
  findVersion num (vpre ++ c :: vpost) = Some c.
Proof.
  intros Hpre Hc. induction vpre as [|v vpre IH]; simpl.
  - rewrite Hc. by rewrite String.eqb_refl.
  - assert (getVersion v ≠ Some num) as Hv by (apply Hpre; left).
    assert (findVersion num (vpre ++ c :: vpost) = Some c) as ->.
    { apply IH. intros c' Hc'. apply Hpre. by right. }
    destruct (getVersion v) as [s|]; [|done].
    destruct (String.eqb_spec s num); [congruence|done].
Qed.

(** X16. [getVersionConfigInternal] returns the first record in scan
    order: images with another name, and records without a version
    identifier or with another one, are passed over, in the catalog and
    inside the image. *)
Theorem getVersionConfigInternal_first_match (name num : string)
  (pre post : list MachineImage) (img : MachineImage)
  (vpre vpost : list MachineImageVersion) (c : MachineImageVersion) :
  (∀ i c', i ∈ pre → Name i = name → c' ∈ Versions i →
           getVersion c' ≠ Some num) →
  Name img = name → Versions img = vpre ++ c :: vpost →
  (∀ c', c' ∈ vpre → getVersion c' ≠ Some num) →
  getVersion c = Some num →
  getVersionConfigInternal name num (pre ++ img :: post) = Some c.
Proof.
  intros Hpre Hn Hvs Hvpre Hc. induction pre as [|i pre IH]; simpl.
  - rewrite Hn, String.eqb_refl, Hvs.
    by rewrite findVersion_first.
  - assert (getVersionConfigInternal name num (pre ++ img :: post) = Some c)
      as ->.
    { apply IH. intros i' c' Hi'. apply Hpre. by right. }
    destruct (String.eqb_spec (Name i) name) as [Hi|Hi]; [|done].
    assert (findVersion num (Versions i) = None) as ->; [|done].
    apply findVersion_None. intros c' Hc'. apply (Hpre i); [left|done..].
Qed.

(** X17. [getVersionConfig] returns a record of one of the two catalogs for
    the name and the version identifier asked for, never a nil map; it
    returns nil exactly when neither catalog has such a record. *)
Theorem getVersionConfig_lookup (name num : string) (pl p : list MachineImage) :
  (∀ c, getVersionConfig name num pl p = Some c →
        (isRecord pl name num c ∨ isRecord p name num c)
        ∧ getVersion c = Some num ∧ c ≠ None)
  ∧ (getVersionConfig name num pl p = None ↔
     ¬ hasRecord pl name num ∧ ¬ hasRecord p name num).
Proof.
  split; [|apply getVersionConfig_None].
  intros c Hc. split; [by apply getVersionConfig_Some|].
  split; [by eapply getVersionConfig_getVersion|].
  by destruct (getVersionConfig_non_nil _ _ _ _ _ Hc) as [c' ->].
Qed.

Lemma merge_fold_Panics (entries : list (string * Value)) :
  fold_left (fun acc entry => nv ←! acc; assign nv entry.1 entry.2)
    entries Panics = Panics.
Proof. induction entries as [|e entries IH]; simpl; [done|apply IH]. Qed.

(** X18. The merge loop: a nil or empty config record leaves the version
    record as it is, also when the version record is the nil map; a config
    record with an entry makes the write into a nil map panic; on two maps
    the result is the config record over the version record, and merging
    the same config record again changes nothing. *)
Theorem mergeConfig_cases (v : MachineImageVersion) (c m : gmap string Value) :
  mergeConfig None v = Returns v
  ∧ mergeConfig (Some ∅) v = Returns v
  ∧ (c ≠ ∅ → mergeConfig (Some c) None = Panics)
  ∧ mergeConfig (Some c) (Some m) = Returns (Some (c ∪ m))
  ∧ mergeConfig (Some c) (Some (c ∪ m)) = Returns (Some (c ∪ m)).
Proof.
  split; [done|]. split.
  { unfold mergeConfig, rangeMap. by rewrite map_to_list_empty. }
  split; [|split; [apply mergeConfig_Some|]].
  - intros Hne. unfold mergeConfig, rangeMap.
    destruct (map_to_list c) as [|e entries] eqn:E.
    + by apply map_to_list_empty_iff in E.
    + simpl. apply merge_fold_Panics.
  - rewrite mergeConfig_Some. by rewrite (assoc_L (∪)), (idemp_L (∪)).
Qed.

(** ** Further properties of the two sorts *)

Lemma filter_all {A : Type} (P : A → Prop) `{∀ x, Decision (P x)}
    (l : list A) :
  (∀ x, x ∈ l → P x) → filter P l = l.
Proof.
  induction l as [|x l IH]; intros Hl; [done|].
  rewrite filter_cons_True by (apply Hl; left).
  f_equal. apply IH. intros y Hy. apply Hl. by right.
Qed.

(** X19. The two sorts keep every image exactly once. When no image has
    the name [OsNameGardenLinux] the result is the plain sort by name, and
    sorting a sorted slice of pairwise different names changes nothing. *)
Theorem sortMachineImages_permutes (GL : string) (l : list MachineImage) :
  sortMachineImages GL l ≡ₚ l
  ∧ (GL ∉ Name <$> l → sortMachineImages GL l = SliceStable lessByName l)
  ∧ (NoDup (Name <$> l) →
     sortMachineImages GL (sortMachineImages GL l) = sortMachineImages GL l).
Proof.
  split; [|split].
  - unfold sortMachineImages. by rewrite !SliceStable_perm.
  - intros Hno. unfold sortMachineImages. rewrite SliceStable_GardenLinux.
    assert (∀ x, x ∈ SliceStable lessByName l → Name x ≠ GL) as Hall.
    { intros x Hx Heq. apply Hno. rewrite SliceStable_perm in Hx.
      rewrite <- Heq. by apply list_elem_of_fmap_2. }
    rewrite filter_none by (intros x Hx Heq; by apply (Hall x)).
    by rewrite filter_all.
  - intros Hnd. unfold sortMachineImages at 1 3. f_equal.
    symmetry. apply SliceStable_byName_unique.
    + unfold sortMachineImages.
      by rewrite (SliceStable_perm (lessGardenLinux GL)),
        (SliceStable_perm lessByName).
    + unfold sortMachineImages. symmetry. apply SliceStable_perm.
    + by apply SliceStable_byName_strict.
Qed.

(** ** What the stage on the store leaves as it is *)

Lemma storeExtends_refl (σ : InPlace.store) : storeExtends σ σ.
Proof.
  intros l. split; [done|]. destruct (σ !! l) as [m|]; [|done].
  by exists m.
Qed.

Lemma storeExtends_trans (σ1 σ2 σ3 : InPlace.store) :
  storeExtends σ1 σ2 → storeExtends σ2 σ3 → storeExtends σ1 σ3.
Proof.
  intros H12 H23 l. destruct (H12 l) as [Hv12 Hk12], (H23 l) as [Hv23 Hk23].
  split; [congruence|].
  destruct (σ1 !! l) as [m1|].
  - destruct Hk12 as (m2 & Hm2 & Hd12). rewrite Hm2 in Hk23.
    destruct Hk23 as (m3 & Hm3 & Hd23). exists m3. split; [done|].
    set_solver.
  - by rewrite Hk12 in Hk23.
Qed.

Lemma inplace_merge_extends (σ σ1 : InPlace.store) (c v : nat) num :
  getVersion (σ !! v) = Some num → getVersion (σ !! c) = Some num →
  InPlace.mergeInPlace σ c v = Returns σ1 → storeExtends σ σ1.
Proof.
  intros Hv Hc Hmerge.
  destruct (getVersion_Some_inv _ _ Hv) as (m & Hm & _).
  destruct (getVersion_Some_inv _ _ Hc) as (cm & Hcm & _).
  destruct (inplace_merge σ c v cm m Hcm Hm) as [Heq _].
  rewrite Heq in Hmerge. injection Hmerge as <-.
  intros l. destruct (decide (l = v)) as [->|Hne].
  - rewrite lookup_insert_eq, Hm. split.
    + rewrite <- Hm, Hv. apply getVersion_merged. by rewrite <- Hcm.
    + exists (cm ∪ m). split; [done|]. rewrite dom_union_L. set_solver.
  - rewrite lookup_insert_ne by done. apply storeExtends_refl.
Qed.

Lemma inplace_versions_extends name (pl p : list InPlace.RefImage)
  (vs : list nat) (σ : InPlace.store) out σ' :
  InPlace.versionsWithConfig σ name vs pl p = Returns (out, σ') →
  storeExtends σ σ'.
Proof.
  revert σ out σ'. induction vs as [|v vs IH]; intros σ out σ'; simpl.
  - intros [= _ <-]. apply storeExtends_refl.
  - destruct (getVersion (σ !! v)) as [num|] eqn:Hnum; simpl; [|discriminate].
    destruct (InPlace.getVersionConfig σ name num pl p) as [c|] eqn:Hc.
    + apply inplace_getVersionConfig_Some in Hc as [_ Hcnum].
      destruct (InPlace.mergeInPlace σ c v) as [σ1|] eqn:Hm;
        simpl; [|discriminate].
      destruct (InPlace.versionsWithConfig σ1 name vs pl p)
        as [[out1 σ2]|] eqn:Hrest; simpl; [|discriminate].
      intros [= _ <-]. eapply storeExtends_trans; [|by eapply IH].
      by apply (inplace_merge_extends σ σ1 c v num).
    + apply IH.
Qed.

Lemma inplace_stage_extends disable (pl p imgs : list InPlace.RefImage)
  (σ : InPlace.store) out σ' :
  InPlace.getFilteredMachineImages σ imgs disable pl p = Returns (out, σ') →
  storeExtends σ σ'
  ∧ ∀ l, l ∈ InPlace.addresses out → l ∈ InPlace.addresses imgs.
Proof.
  revert σ out σ'. induction imgs as [|img imgs IH]; intros σ out σ'; simpl.
  - intros [= <- <-]. split; [apply storeExtends_refl | done].
  - unfold InPlace.addresses at 2. rewrite fmap_cons. simpl.
    fold (InPlace.addresses imgs).
    destruct (contains disable (InPlace.RName img)).
    + intros [Hext Hsub]%IH. split; [done|].
      intros l Hl. apply elem_of_app. right. by apply Hsub.
    + destruct (InPlace.versionsWithConfig σ _ _ pl p)
        as [[vout σ1]|] eqn:Hvs; simpl; [|discriminate].
      destruct (InPlace.getFilteredMachineImages σ1 imgs disable pl p)
        as [[out1 σ2]|] eqn:Hrest; simpl; [|discriminate].
      intros [= <- <-]. apply IH in Hrest as [Hext Hsub].
      split.
      * eapply storeExtends_trans; [|exact Hext].
        by eapply inplace_versions_extends.
      * apply inplace_versions_frame in Hvs as [Hvsub _].
        intros l Hl. apply elem_of_app.
        destruct (bool_decide (0 < length vout)).
        -- unfold InPlace.addresses in Hl. rewrite fmap_cons in Hl.
           simpl in Hl. apply elem_of_app in Hl as [Hl|Hl].
           ++ left. by eapply elem_of_sublist.
           ++ right. by apply Hsub.
        -- right. by apply Hsub.
Qed.

(** X20. What the in-place stage never does, on any store: it writes only
    into objects that are versions of the images it is given, it creates
    and removes no object, it removes no key of an object, it changes no
    version identifier, and the slices it returns hold only versions of
    the images it was given. *)
Theorem inplace_stage_preserves disable (pl p imgs : list InPlace.RefImage)
  (σ : InPlace.store) out σ' :
  InPlace.getFilteredMachineImages σ imgs disable pl p = Returns (out, σ') →
  (∀ l, l ∉ InPlace.addresses imgs → σ' !! l = σ !! l)
  ∧ storeExtends σ σ'
  ∧ (∀ l, l ∈ InPlace.addresses out → l ∈ InPlace.addresses imgs).
Proof.
  intros Hstage. split; [by eapply inplace_stage_frame|].
  by eapply inplace_stage_extends.
Qed.

(** ** When the call panics *)

Section PipelinePanics.
Context {OsImagesFilterKind : Type} `{EqDecision OsImagesFilterKind}.
Variable OsImagesFilterKindAll : OsImagesFilterKind.
Variable OsNameGardenLinux : string.
Variable filterOsImages :
  list OsImage → list OsImagesFilterKind → list OsImagesFilterKind →
  list OsImage * option error.

(** X23. [ComputeMachineImages] panics exactly when the validation passes,
    the filter returns a list without an error, and that list has an entry
    whose name is not disabled and whose version has no version identifier;
    whether a provider catalog has a record for it plays no part. *)
Theorem ComputeMachineImages_panics_iff lss landscape provider
    providerLandscape disable inc exc :
  ComputeMachineImages OsImagesFilterKindAll OsNameGardenLinux
    filterOsImages lss landscape provider providerLandscape disable inc exc
  = Panics ↔
  validateFilters (effectiveIncludeFilters OsImagesFilterKindAll inc) exc
  = None
  ∧ ∃ flat o,
      filterOsImages (mergedFlatImages lss landscape)
        (effectiveIncludeFilters OsImagesFilterKindAll inc) exc
      = (flat, None)
      ∧ o ∈ flat ∧ (OsName o ∉ disable) ∧ getVersion (Version o) = None.
Proof.
  rewrite ComputeMachineImages_stages.
  destruct (validateFilters _ exc) as [err|].
  { split; [discriminate | by intros [? _]]. }
  destruct (filterOsImages _ _ exc) as [flat [err|]].
  { split; [discriminate|]. by intros (_ & flat' & o & [= _ ?] & _). }
  assert (getFilteredMachineImages
            (sortMachineImages OsNameGardenLinux
               (convertOsImagesToMachineImages flat))
            disable providerLandscape provider = Panics ↔
          (∃ o, o ∈ flat ∧ (OsName o ∉ disable)
                ∧ getVersion (Version o) = None)) as Hstage.
  { rewrite getFilteredMachineImages_Panics. split.
    - intros (img & v & Himg & Hd & Hv & Hnone).
      apply sortMachineImages_elem_of, convert_elem_of_versions in Himg
        as [Hvs _].
      rewrite Hvs in Hv. apply versionsNamed_elem_of in Hv.
      by exists (mkOsImage (Name img) v).
    - intros (o & Ho & Hd & Hnone).
      assert (Version o ∈ versionsNamed (OsName o) flat) as Hv.
      { apply versionsNamed_elem_of. by destruct o. }
      exists (mkMachineImage (OsName o) (versionsNamed (OsName o) flat)),
        (Version o).
      repeat split; try done.
      apply sortMachineImages_elem_of, convert_elem_of_versions. simpl.
      split; [done|]. intros Hnil. rewrite Hnil in Hv.
      by apply elem_of_nil in Hv. }
  destruct (bool_decide_reflect (length flat = 0)) as [Hlen|Hlen].
  { apply nil_length_inv in Hlen as ->. split; [discriminate|].
    by intros (_ & flat' & o & [= <-] & ?%elem_of_nil & _). }
  destruct (getFilteredMachineImages _ _ _ _) as [res|] eqn:E; simpl.
  - split; [discriminate|].
    intros (_ & flat' & o & [= <-] & Ho & Hd & Hnone).
    assert (Returns res = Panics) as Habs; [|discriminate].
    apply Hstage. by exists o.
  - split; [intros _|done]. split; [done|].
    destruct (proj1 Hstage eq_refl) as (o & Ho & Hd & Hnone).
    by exists flat, o.
Qed.
End PipelinePanics.

(** ** The further properties at the example catalogs *)

Lemma groups_of_flatImages_witness :
  NoDup (Name <$> exampleLandscape)
  ∧ (∀ img, img ∈ exampleLandscape → Versions img ≠ [])
  ∧ convertOsImagesToMachineImages (flatImages exampleLandscape)
    ≡ₚ exampleLandscape.
Proof.
  assert (NoDup (Name <$> exampleLandscape)) as Hnd by by_computation.
  assert (∀ img, img ∈ exampleLandscape → Versions img ≠ []) as Hne.
  { intros img Hin. unfold exampleLandscape in Hin.
    repeat (apply elem_of_cons in Hin as [->|Hin]); try done.
    by apply elem_of_nil in Hin. }
  split; [exact Hnd|]. split; [exact Hne|].
  exact (groups_of_flatImages exampleLandscape Hnd Hne).
Defined.

Lemma ComputeMachineImages_early_returns_witness :
  validateFilters (effectiveIncludeFilters "All" []) [] = None
  ∧ rejectAll (mergedFlatImages [] [mkMachineImage "Ubuntu" [unidentified]])
      (effectiveIncludeFilters "All" []) []
    = ([], Some "unknown filter kind")
  ∧ ComputeMachineImages "All" "GardenLinux" rejectAll
      [] [mkMachineImage "Ubuntu" [unidentified]] [] [] [] [] []
    = Returns (None, Some "unknown filter kind").
Proof.
  assert (validateFilters (effectiveIncludeFilters "All" []) [] = None)
    as Hval by reflexivity.
  assert (rejectAll
            (mergedFlatImages [] [mkMachineImage "Ubuntu" [unidentified]])
            (effectiveIncludeFilters "All" []) []
          = ([], Some "unknown filter kind")) as Hfilter by reflexivity.
  split; [exact Hval|]. split; [exact Hfilter|].
  exact (proj1 (ComputeMachineImages_early_returns "All" "GardenLinux"
                  rejectAll [] [mkMachineImage "Ubuntu" [unidentified]]
                  [] [] [] [] [] [] _ Hval Hfilter)
           "unknown filter kind" eq_refl).
Defined.

Lemma lss_duplicates_ignored_witness :
  (∀ o, o ∈ flatImages [mkMachineImage "GardenLinux" [version "1.0"]] →
        o ∈ flatImages exampleLandscape)
  ∧ ComputeMachineImages "All" "GardenLinux" keepAll
      [mkMachineImage "GardenLinux" [version "1.0"]] exampleLandscape
      exampleProvider exampleProviderLandscape [] [] []
    = ComputeMachineImages "All" "GardenLinux" keepAll
        [] exampleLandscape exampleProvider exampleProviderLandscape
        [] [] [].
Proof.
  assert (∀ o, o ∈ flatImages [mkMachineImage "GardenLinux" [version "1.0"]] →
               o ∈ flatImages exampleLandscape) as Hdup.
  { intros o Ho. apply list_elem_of_singleton in Ho as ->.
    do 2 right. left. }
  split; [exact Hdup|].
  exact (lss_duplicates_ignored "All" "GardenLinux" keepAll _ _ _ _ _ _ _ Hdup).
Defined.

Lemma ComputeMachineImages_output_wellformed_witness :
  ComputeMachineImages "All" "GardenLinux" keepAll
    exampleLss exampleLandscape exampleProvider exampleProviderLandscape
    [] [] []
  = Returns (Some exampleOutput, None)
  ∧ NoDup (Name <$> exampleOutput)
  ∧ ∀ img, img ∈ exampleOutput → Versions img ≠ [].
Proof.
  assert (ComputeMachineImages "All" "GardenLinux" keepAll
            exampleLss exampleLandscape exampleProvider
            exampleProviderLandscape [] [] []
          = Returns (Some exampleOutput, None)) as Hout
    by (vm_compute; reflexivity).
  split; [exact Hout|].
  exact (ComputeMachineImages_output_wellformed _ _ _ _ _ _ _ _ _ _ _ Hout).
Defined.




Lemma getVersionConfigInternal_first_match_witness :
  getVersionConfigInternal "Ubuntu" "20.04" exampleScan
  = Some (versionWith "20.04" "arch" "arm64").
Proof.
  apply (getVersionConfigInternal_first_match "Ubuntu" "20.04"
           [mkMachineImage "GardenLinux" [versionWith "20.04" "arch" "amd64"]]
           []
           (mkMachineImage "Ubuntu"
              [ unidentified; version "22.04";
                versionWith "20.04" "arch" "arm64";
                versionWith "20.04" "arch" "amd64" ])
           [unidentified; version "22.04"]
           [versionWith "20.04" "arch" "amd64"]).
  - intros i c' Hi Hn. apply list_elem_of_singleton in Hi as ->.
    discriminate Hn.
  - reflexivity.
  - reflexivity.
  - intros c' Hc'.
    repeat (apply elem_of_cons in Hc' as [->|Hc']);
      [vm_compute; discriminate..|by apply elem_of_nil in Hc'].
  - vm_compute. reflexivity.
Defined.

Lemma sortMachineImages_order_irrelevant_witness :
  NoDup (Name <$> exampleSorted)
  ∧ sortMachineImages "GardenLinux" exampleSorted
    = sortMachineImages "GardenLinux"
        [ mkMachineImage "Debian" [version "12"];
          mkMachineImage "GardenLinux" [version "1.0"];
          mkMachineImage "Flatcar" [version "3.1"];
          mkMachineImage "Ubuntu" [version "20.04"; version "22.04"] ].
Proof.
  assert (NoDup (Name <$> exampleSorted)) as Hnd by by_computation.
  split; [exact Hnd|].
  apply (sortMachineImages_order_irrelevant "GardenLinux" _ _ Hnd).
  apply perm_swap.
Defined.

Lemma inplace_stage_refines_witness :
  InPlace.separated exampleRefImages [] exampleRefProvider
  ∧ getFilteredMachineImages
      (InPlace.loadImage exampleStore <$> exampleRefImages) []
      [] (InPlace.loadImage exampleStore <$> exampleRefProvider)
    = Returns
        (InPlace.loadImage exampleStoreAfter
           <$> [ InPlace.mkRefImage "GardenLinux" [0];
                 InPlace.mkRefImage "Ubuntu" [1] ]).
Proof.
  assert (InPlace.separated exampleRefImages [] exampleRefProvider) as Hsep.
  { split; [by_computation|]. intros l Hl. split; [apply not_elem_of_nil|].
    revert l Hl. apply Forall_forall. by_computation. }
  split; [exact Hsep|].
  pose proof (inplace_stage_refines [] [] exampleRefProvider
                exampleRefImages exampleStore Hsep) as Href.
  assert (InPlace.getFilteredMachineImages exampleStore exampleRefImages []
            [] exampleRefProvider
          = Returns ([ InPlace.mkRefImage "GardenLinux" [0];
                       InPlace.mkRefImage "Ubuntu" [1] ],
                     exampleStoreAfter)) as Hstage
    by (vm_compute; reflexivity).
  rewrite Hstage in Href. exact Href.
Defined.

Lemma inplace_stage_preserves_witness :
  InPlace.getFilteredMachineImages exampleStore exampleRefImages []
    [] exampleRefProvider
  = Returns ([ InPlace.mkRefImage "GardenLinux" [0];
               InPlace.mkRefImage "Ubuntu" [1] ],
             exampleStoreAfter)
  ∧ (∀ l, l ∉ InPlace.addresses exampleRefImages →
          exampleStoreAfter !! l = exampleStore !! l)
  ∧ storeExtends exampleStore exampleStoreAfter.
Proof.
  assert (InPlace.getFilteredMachineImages exampleStore exampleRefImages []
            [] exampleRefProvider
          = Returns ([ InPlace.mkRefImage "GardenLinux" [0];
                       InPlace.mkRefImage "Ubuntu" [1] ],
                     exampleStoreAfter)) as Hstage
    by (vm_compute; reflexivity).
  split; [exact Hstage|].
  destruct (inplace_stage_preserves _ _ _ _ _ _ _ Hstage) as (H1 & H2 & _).
  split; [exact H1 | exact H2].
Defined.
